(** * simple-mcp: the tool handlers of [mcp_server.py] and the command
    loop of [mcp_client.py], embedded in Rocq.

    Python values are modelled as the code has them: a [str] is the
    sequence of its Unicode code points, a [dict] with string keys is a
    finite map, exceptions are values carrying their class and message,
    and code that may raise returns an [outcome]. *)

From Stdlib Require Import ZArith NArith Ascii String List Lia Decimal.
From stdpp Require Import gmap list sorting.

Open Scope N_scope.
Set Warnings "-register-all".

(** ** Python strings *)

(** A Python [str]: its code points, in order. *)
Abbreviation pystr := (list N).

(** An ASCII literal of the source as a [pystr]. *)
Definition lit (s : string) : pystr :=
  map N_of_ascii (list_ascii_of_string s).

Global Arguments lit : simpl never.

Definition ch_space : N := 32.
Definition ch_dquote : N := 34.
Definition ch_squote : N := 39.
Definition ch_slash : N := 47.
Definition ch_newline : N := 10.

(** [str.isspace] on one code point: the characters [str.strip()] and
    [str.split()] treat as whitespace. *)
Definition isspace (c : N) : bool :=
  ((9 <=? c) && (c <=? 13)) || ((28 <=? c) && (c <=? 32))
  || (c =? 133) || (c =? 160) || (c =? 5760)
  || ((8192 <=? c) && (c <=? 8202))
  || (c =? 8232) || (c =? 8233) || (c =? 8239) || (c =? 8287) || (c =? 12288).

(** [s.lstrip()], [s.rstrip()], [s.strip()]. *)
Fixpoint lstrip (s : pystr) : pystr :=
  match s with
  | c :: s' => if isspace c then lstrip s' else s
  | [] => []
  end.

Definition rstrip (s : pystr) : pystr := reverse (lstrip (reverse s)).

Definition strip (s : pystr) : pystr := rstrip (lstrip s).

(** [s.split()]: the maximal runs of non-whitespace characters. *)
Fixpoint split_ws_from (cur : pystr) (s : pystr) : list pystr :=
  match s with
  | [] => match cur with [] => [] | _ => [cur] end
  | c :: s' =>
      if isspace c
      then match cur with [] => split_ws_from [] s' | _ => cur :: split_ws_from [] s' end
      else split_ws_from (cur ++ [c]) s'
  end.

Definition split_ws (s : pystr) : list pystr := split_ws_from [] s.

(** [s.split(sep)] for a one-character separator: never empty, and empty
    fields are kept. *)
Fixpoint split_on (sep : N) (s : pystr) : list pystr :=
  match s with
  | [] => [[]]
  | c :: s' =>
      if c =? sep then [] :: split_on sep s'
      else match split_on sep s' with
           | w :: ws => (c :: w) :: ws
           | [] => [[c]]
           end
  end.

(** [sep.join(parts)]. *)
Fixpoint join (sep : pystr) (parts : list pystr) : pystr :=
  match parts with
  | [] => []
  | [p] => p
  | p :: rest => p ++ sep ++ join sep rest
  end.

(** [s.startswith(p)]. *)
Fixpoint startswith (p s : pystr) : bool :=
  match p, s with
  | [], _ => true
  | a :: p', b :: s' => (a =? b) && startswith p' s'
  | _ :: _, [] => false
  end.

(** [str.lower] on one code point, for U+0000..U+00FF (the ASCII capitals
    and the Latin-1 capitals); code points above U+00FF are left as they
    are, the Unicode case table beyond Latin-1 is not part of the model. *)
Definition lower_char (c : N) : N :=
  if ((65 <=? c) && (c <=? 90))
     || ((192 <=? c) && (c <=? 222) && negb (c =? 215))
  then c + 32 else c.

Definition lower (s : pystr) : pystr := map lower_char s.

(** Truthiness of a string or a list: non-empty. *)
Definition nonempty {A} (l : list A) : bool :=
  match l with [] => false | _ => true end.

(** [str(n)] for a non-negative integer: its decimal digits. *)
Fixpoint digits_of_uint (d : Decimal.uint) : pystr :=
  match d with
  | Nil => []
  | D0 d' => 48 :: digits_of_uint d'
  | D1 d' => 49 :: digits_of_uint d'
  | D2 d' => 50 :: digits_of_uint d'
  | D3 d' => 51 :: digits_of_uint d'
  | D4 d' => 52 :: digits_of_uint d'
  | D5 d' => 53 :: digits_of_uint d'
  | D6 d' => 54 :: digits_of_uint d'
  | D7 d' => 55 :: digits_of_uint d'
  | D8 d' => 56 :: digits_of_uint d'
  | D9 d' => 57 :: digits_of_uint d'
  end.

Definition str_of_N (n : N) : pystr := digits_of_uint (N.to_uint n).

Definition str_of_Z (z : Z) : pystr :=
  match z with
  | Z0 => lit "0"
  | Zpos p => str_of_N (Npos p)
  | Zneg p => 45 :: str_of_N (Npos p)
  end.

(** ** Exceptions and outcomes *)

(** The classes of the exceptions the two programs meet. The first ones
    derive from [BaseException] and not from [Exception]:
    [asyncio.CancelledError], raised at an [await] when the task is
    cancelled, is one of them, and [COtherBaseException] stands for any
    further one. Every other class is a subclass of [Exception], with
    [COtherException] for those that have no name here. *)
Inductive exn_class :=
  | CBaseException | CKeyboardInterrupt | CSystemExit | CGeneratorExit
  | CCancelledError | COtherBaseException (name : pystr)
  | CException | CEOFError | CRuntimeError | CRecursionError | CValueError | CTypeError
  | CNameError | CSyntaxError | CZeroDivisionError | CMcpError
  | CUnicodeEncodeError | CUnicodeDecodeError
  | COSError | CFileNotFoundError | CFileExistsError
  | CNotADirectoryError | CIsADirectoryError | CPermissionError
  | COtherException (name : pystr).

(** [issubclass(c, Exception)]: what [except Exception] catches. *)
Definition is_Exception (c : exn_class) : bool :=
  match c with
  | CBaseException | CKeyboardInterrupt | CSystemExit | CGeneratorExit
  | CCancelledError | COtherBaseException _ => false
  | _ => true
  end.

(** [issubclass(c, ValueError)]: [UnicodeError] and its subclasses are
    among them. *)
Definition is_ValueError (c : exn_class) : bool :=
  match c with
  | CValueError | CUnicodeEncodeError | CUnicodeDecodeError => true
  | _ => false
  end.

(** [issubclass(c, OSError)]: what [except OSError] catches. *)
Definition is_OSError (c : exn_class) : bool :=
  match c with
  | COSError | CFileNotFoundError | CFileExistsError
  | CNotADirectoryError | CIsADirectoryError | CPermissionError => true
  | _ => false
  end.

(** A raised exception: its class and [str(e)]. *)
Record exn := { exn_cls : exn_class; exn_str : pystr }.

(** What running a piece of code gives: a value, or a raised exception. *)
Inductive outcome (A : Type) :=
  | Returned (a : A)
  | Raised (e : exn).
Arguments Returned {A} a.
Arguments Raised {A} e.

(** ** Code that has a state and may raise *)

(** A computation over a state [W]: it returns or raises, and leaves a
    state behind either way. *)
Definition M (W A : Type) : Type := W → outcome A * W.

Definition ret {W A} (a : A) : M W A := λ w, (Returned a, w).

Definition bind {W A B} (m : M W A) (k : A → M W B) : M W B :=
  λ w, match m w with
       | (Returned a, w') => k a w'
       | (Raised e, w') => (Raised e, w')
       end.

Definition raise {W A} (e : exn) : M W A := λ w, (Raised e, w).

Notation "'do' x <- m ; k" := (bind m (λ x, k))
  (at level 10, x name, m at level 100, k at level 200).
Notation "m ;; k" := (bind m (λ _, k))
  (at level 100, k at level 200, right associativity).

(** [try: body  except Exception as e: handler(e)]. *)
Definition try_except_Exception {W A} (body : M W A) (handler : exn → M W A) : M W A :=
  λ w, match body w with
       | (Raised e, w') =>
           if is_Exception (exn_cls e) then handler e w' else (Raised e, w')
       | r => r
       end.

(** [for x in xs: body(x)]. *)
Fixpoint for_each {W A} (xs : list A) (body : A → M W unit) : M W unit :=
  match xs with
  | [] => ret tt
  | x :: xs' => body x ;; for_each xs' body
  end.

Definition nl : pystr := [ch_newline].

(** ** mcp_client.py *)

Module Client.

(** *** [parse_command_args] *)

(** The four local variables of the scanning loop. *)
Record scan := {
  args : list pystr;
  current_arg : pystr;
  in_quotes : bool;
  quote_char : option N;
}.

Definition scan_start : scan :=
  {| args := []; current_arg := []; in_quotes := false; quote_char := None |}.

(** One turn of [while i < len(command_line)] on [char = command_line[i]]. *)
Definition scan_char (st : scan) (char : N) : scan :=
  if negb (in_quotes st) then
    if (char =? ch_dquote) || (char =? ch_squote) then
      {| args := args st; current_arg := current_arg st;
         in_quotes := true; quote_char := Some char |}
    else if char =? ch_space then
      if nonempty (current_arg st) then
        {| args := args st ++ [current_arg st]; current_arg := [];
           in_quotes := in_quotes st; quote_char := quote_char st |}
      else st
    else
      {| args := args st; current_arg := current_arg st ++ [char];
         in_quotes := in_quotes st; quote_char := quote_char st |}
  else
    if bool_decide (Some char = quote_char st) then
      {| args := args st; current_arg := current_arg st;
         in_quotes := false; quote_char := None |}
    else
      {| args := args st; current_arg := current_arg st ++ [char];
         in_quotes := in_quotes st; quote_char := quote_char st |}.

(** After the loop: the last argument is added if there is one. *)
Definition scan_finish (st : scan) : list pystr :=
  if nonempty (current_arg st) then args st ++ [current_arg st] else args st.

Definition parse_command_args (command_line : pystr) : list pystr :=
  scan_finish (foldl scan_char scan_start command_line).

(** *** The session and the client object *)

(** A content item of a tool result. Only [TextContent] has a [text]
    attribute. *)
Inductive content_item :=
  | TextContent (text : pystr)
  | ImageContent (data mimeType : pystr)
  | EmbeddedResource (uri : pystr).

Record CallToolResult := { content : list content_item; isError : bool }.

Record Tool := { name : pystr; description : option pystr }.

Record ListToolsResult := { result_tools : list Tool }.

(** The argument mapping of a tool call: [Dict[str, Any]], with the
    string values the client passes. *)
Abbreviation dict := (gmap pystr pystr).

(** What the client does to the outside, in order. *)
Inductive event :=
  | Prompted (prompt : pystr)
  | Printed (line : pystr)
  | LoggedError (msg : pystr)
  | ListToolsRequest
  | CallToolRequest (tool_name : pystr) (arguments : dict).

(** The tool calls among some events, in order. *)
Definition calls_in (events : list event) : list (pystr * dict) :=
  omap (λ e, match e with
             | CallToolRequest tool_name arguments => Some (tool_name, arguments)
             | _ => None
             end) events.

(** [ClientSession], seen from the client: each request takes the
    session from one state to the next and returns or raises. *)
Record ClientSession (S : Type) := {
  session_list_tools : S → outcome ListToolsResult * S;
  session_call_tool : pystr → dict → S → outcome CallToolResult * S;
}.
Arguments session_list_tools {S} _ _.
Arguments session_call_tool {S} _ _ _ _.

(** The state a coroutine of [SimpleMCPClient] runs in: [self.tools], the
    session, and the events so far. *)
Record world (S : Type) := {
  tools : list Tool;
  sess : S;
  trace : list event;
}.
Arguments tools {S} _.
Arguments sess {S} _.
Arguments trace {S} _.

Definition emit {S} (e : event) : M (world S) unit :=
  λ w, (Returned tt, {| tools := tools w; sess := sess w; trace := trace w ++ [e] |}).

Definition print {S} (line : pystr) : M (world S) unit := emit (Printed line).

Definition logger_error {S} (msg : pystr) : M (world S) unit := emit (LoggedError msg).

Definition set_tools {S} (ts : list Tool) : M (world S) unit :=
  λ w, (Returned tt, {| tools := ts; sess := sess w; trace := trace w |}).

Definition get_tools {S} : M (world S) (list Tool) := λ w, (Returned (tools w), w).

Section WithSession.
Context {S : Type} (session : ClientSession S).

(** [await session.list_tools()] and [await session.call_tool(..)]. *)
Definition await_list_tools : M (world S) ListToolsResult :=
  λ w, let '(r, s') := session_list_tools session (sess w) in
       (r, {| tools := tools w; sess := s'; trace := trace w ++ [ListToolsRequest] |}).

Definition await_call_tool (tool_name : pystr) (arguments : dict) : M (world S) CallToolResult :=
  λ w, let '(r, s') := session_call_tool session tool_name arguments (sess w) in
       (r, {| tools := tools w; sess := s';
              trace := trace w ++ [CallToolRequest tool_name arguments] |}).

(** The bullet of the source's f-string, as its file has it. *)
Definition bullet : pystr := [226; 8364; 162].

(** [str(x)] of an optional string. *)
Definition str_of_optional (o : option pystr) : pystr :=
  match o with Some s => s | None => lit "None" end.

Definition list_tools : M (world S) unit :=
  try_except_Exception
    (do result <- await_list_tools;
     set_tools (result_tools result) ;;
     print (nl ++ lit "=== Available Tools ===") ;;
     (do ts <- get_tools;
      for_each ts (λ tool,
        print (bullet ++ lit " " ++ name tool ++ lit ": "
               ++ str_of_optional (description tool)))) ;;
     print [])
    (λ e, logger_error (lit "Failed to list tools: " ++ exn_str e)).

(** The first content item that has a [text] attribute. *)
Fixpoint first_text (items : list content_item) : option pystr :=
  match items with
  | [] => None
  | TextContent t :: _ => Some t
  | _ :: rest => first_text rest
  end.

Definition call_tool (tool_name : pystr) (arguments : dict) : M (world S) pystr :=
  try_except_Exception
    (do result <- await_call_tool tool_name arguments;
     match first_text (content result) with
     | Some text => ret text
     | None => ret (lit "No content returned")
     end)
    (λ e, logger_error (lit "Error calling tool " ++ tool_name ++ lit ": " ++ exn_str e) ;;
          ret (lit "Error: " ++ exn_str e)).

(** *** [show_help] and [interactive_session] *)

Definition show_help : M (world S) unit :=
  print (nl ++ lit "=== Available Commands ===") ;;
  print (lit "help              - Show this help message") ;;
  print (lit "tools             - List available tools") ;;
  print (lit "calc <expr>       - Calculate mathematical expression") ;;
  print (lit "ls [directory]    - List files in directory") ;;
  print (lit "read <filepath>   - Read file contents") ;;
  print (lit "write <file> <content> - Write content to file (use quotes for content with spaces)") ;;
  print (lit "                        - Example: write hello.txt "
         ++ [ch_dquote] ++ lit "Hello, World!" ++ [ch_dquote]) ;;
  print (lit "quit              - Exit the client") ;;
  print [].

(** [input(prompt)]: writes the prompt, then returns the line typed or
    raises ([EOFError], [KeyboardInterrupt]). *)
Definition input (prompt : pystr) (typed : outcome pystr) : M (world S) pystr :=
  emit (Prompted prompt) ;;
  match typed with
  | Returned line => ret line
  | Raised e => raise e
  end.

(** How one turn of [while True] ends. *)
Inductive loop_ctl := Continue | Break.

(** The branch of [command.startswith('calc ')]. *)
Definition calc_command (command : pystr) : M (world S) loop_ctl :=
  let expression := strip (drop 5 command) in
  if nonempty expression then
    do result <- call_tool (lit "calculate") {[ lit "expression" := expression ]};
    print (lit "Result: " ++ result) ;; ret Continue
  else
    print (lit "Usage: calc <expression>") ;; ret Continue.

(** The branch of [command.startswith('ls')]. *)
Definition ls_command (command : pystr) : M (world S) loop_ctl :=
  let parts := split_ws command in
  let directory := if decide (1 < length parts)%nat
                   then default [] (parts !! 1%nat) else lit "." in
  do result <- call_tool (lit "list_files") {[ lit "directory" := directory ]};
  print result ;; ret Continue.

(** The branch of [command.startswith('read ')]. *)
Definition read_command (command : pystr) : M (world S) loop_ctl :=
  let filepath := strip (drop 5 command) in
  if nonempty filepath then
    do result <- call_tool (lit "read_file") {[ lit "filepath" := filepath ]};
    print result ;; ret Continue
  else
    print (lit "Usage: read <filepath>") ;; ret Continue.

(** The branch of [command.startswith('write ')]. *)
Definition write_command (command : pystr) : M (world S) loop_ctl :=
  let args := parse_command_args (strip (drop 6 command)) in
  if decide (2 ≤ length args)%nat then
    let filepath := default [] (args !! 0%nat) in
    let content := join (lit " ") (drop 1 args) in
    do result <- call_tool (lit "write_file")
                   (<[ lit "filepath" := filepath ]> {[ lit "content" := content ]});
    print result ;; ret Continue
  else
    print (lit "Usage: write <filepath> <content>") ;;
    print (lit "       write <filepath> " ++ [ch_dquote]
           ++ lit "<content with spaces>" ++ [ch_dquote]) ;;
    ret Continue.

(** The last branch. *)
Definition unknown_command (command : pystr) : M (world S) loop_ctl :=
  print (lit "Unknown command: " ++ command) ;;
  print (lit "Type 'help' for available commands") ;;
  ret Continue.

(** The chain of [if]/[elif] on the stripped line. *)
Definition dispatch_command (command : pystr) : M (world S) loop_ctl :=
  if bool_decide (lower command ∈ [lit "quit"; lit "exit"; lit "q"]) then ret Break
  else if bool_decide (lower command = lit "help") then show_help ;; ret Continue
  else if bool_decide (lower command = lit "tools") then list_tools ;; ret Continue
  else if startswith (lit "calc ") command then calc_command command
  else if startswith (lit "ls") command then ls_command command
  else if startswith (lit "read ") command then read_command command
  else if startswith (lit "write ") command then write_command command
  else if bool_decide (command = []) then ret Continue
  else unknown_command command.

(** The [try] block of one turn of the loop. *)
Definition interactive_command (typed : outcome pystr) : M (world S) loop_ctl :=
  do line <- input (nl ++ lit "mcp> ") typed;
  dispatch_command (strip line).

(** The two [except] clauses of the loop's [try]. *)
Definition turn_except (r : outcome loop_ctl * world S) : outcome loop_ctl * world S :=
  match r with
  | (Raised e, w') =>
      match exn_cls e with
      | CKeyboardInterrupt =>
          (print (nl ++ lit "Use 'quit' to exit") ;; ret Continue) w'
      | c =>
          if is_Exception c
          then (print (lit "Error: " ++ exn_str e) ;; ret Continue) w'
          else (Raised e, w')
      end
  | r => r
  end.

(** One turn of the loop. *)
Definition interactive_turn (typed : outcome pystr) : M (world S) loop_ctl :=
  λ w, turn_except (interactive_command typed w).

(** The loop, run on what [input] gives turn after turn; it stops at
    [break], at an exception that leaves the loop, or when [inputs] is
    used up. *)
Fixpoint interactive_loop (inputs : list (outcome pystr)) : M (world S) unit :=
  match inputs with
  | [] => ret tt
  | typed :: rest =>
      do ctl <- interactive_turn typed;
      match ctl with
      | Break => ret tt
      | Continue => interactive_loop rest
      end
  end.

Definition interactive_session (inputs : list (outcome pystr)) : M (world S) unit :=
  print (nl ++ lit "=== Interactive MCP Client Session ===") ;;
  print (lit "Type 'help' for available commands, 'quit' to exit") ;;
  interactive_loop inputs.

(** *** [run_demo] *)

Definition demo_expressions : list pystr :=
  [lit "2 + 3 * 4"; lit "sqrt(16)"; lit "pi * 2"; lit "sin(pi/2)"].

Definition test_content : pystr :=
  lit "Hello from MCP Client!" ++ nl ++ lit "This is a test file.".

Definition run_demo : M (world S) unit :=
  print (nl ++ lit "=== MCP Client Demo ===") ;;
  print (nl ++ lit "1. Mathematical calculations:") ;;
  for_each demo_expressions (λ expr,
    do result <- call_tool (lit "calculate") {[ lit "expression" := expr ]};
    print (lit "  " ++ expr ++ lit " = " ++ result)) ;;
  print (nl ++ lit "2. File operations:") ;;
  (do result <- call_tool (lit "list_files") {[ lit "directory" := lit "." ]};
   print (lit "  Current directory contents:" ++ nl ++ lit "  " ++ result)) ;;
  (do result <- call_tool (lit "write_file")
                  (<[ lit "filepath" := lit "test_file.txt" ]>
                     {[ lit "content" := test_content ]});
   print (lit "  Write result: " ++ result)) ;;
  (do result <- call_tool (lit "read_file") {[ lit "filepath" := lit "test_file.txt" ]};
   print (lit "  Read result: " ++ result)) ;;
  print (nl ++ lit "Demo completed!").

End WithSession.

(** *** [main] *)

(** The lines of the usage text. *)
Definition usage_lines : list pystr :=
  [lit "Usage: python mcp_client.py <mode> [server_command...]";
   lit "Modes:";
   lit "  demo                    - Run demonstration";
   lit "  interactive             - Interactive session";
   lit "  server <command>        - Specify server command";
   nl ++ lit "Example:";
   lit "  python mcp_client.py demo";
   lit "  python mcp_client.py interactive";
   lit "  python mcp_client.py server python mcp_server.py"].

(** [main] on [sys.argv]: the lines it prints itself, and the call of
    [run_with_server(server_command, operation)] it ends with, if any. *)
Definition main (argv : list pystr) : list pystr * option (list pystr * pystr) :=
  if decide (length argv < 2)%nat then (usage_lines, None)
  else
    let mode := default [] (argv !! 1%nat) in
    let server_command := [lit "python"; lit "mcp_server.py"] in
    let server_command :=
      if bool_decide (mode = lit "server") && bool_decide (2 < length argv)%nat
      then drop 2 argv else server_command in
    if bool_decide (mode = lit "demo") then ([], Some (server_command, lit "demo"))
    else if bool_decide (mode = lit "interactive")
         then ([], Some (server_command, lit "interactive"))
         else ([lit "Unknown mode: " ++ mode], None).

End Client.


(** ** The file system the server runs on *)

Module Posix.

(** The part of the file system the development computes with is a tree
    of directories: a node is named by the components of its path from
    the root, which is also the working directory of the process; the
    root is always a directory. A regular file holds its characters; a
    special file (a device, a socket, a pipe) holds nothing the tree
    knows. *)
Inductive node :=
  | File (content : pystr)
  | Dir
  | Special.

Global Instance node_eq_dec : EqDecision node.
Proof. solve_decision. Defined.

Abbreviation tree := (gmap (list pystr) node).

Inductive errno := ENOENT | ENXIO | EACCES | EEXIST | ENOTDIR | EISDIR | ENAMETOOLONG.

Definition errno_number (e : errno) : N :=
  match e with
  | ENOENT => 2 | ENXIO => 6 | EACCES => 13 | EEXIST => 17
  | ENOTDIR => 20 | EISDIR => 21 | ENAMETOOLONG => 36
  end.

Definition strerror (e : errno) : pystr :=
  match e with
  | ENOENT => lit "No such file or directory"
  | ENXIO => lit "No such device or address"
  | EACCES => lit "Permission denied"
  | EEXIST => lit "File exists"
  | ENOTDIR => lit "Not a directory"
  | EISDIR => lit "Is a directory"
  | ENAMETOOLONG => lit "File name too long"
  end.

(** The subclass of [OSError] Python raises for an error number. *)
Definition errno_class (e : errno) : exn_class :=
  match e with
  | ENOENT => CFileNotFoundError
  | ENXIO => COSError
  | EACCES => CPermissionError
  | EEXIST => CFileExistsError
  | ENOTDIR => CNotADirectoryError
  | EISDIR => CIsADirectoryError
  | ENAMETOOLONG => COSError
  end.

Definition hex_digit (d : N) : N := if d <? 10 then 48 + d else 87 + d.

(** The last [digits] hexadecimal digits of [c]. *)
Fixpoint hex (digits : nat) (c : N) : pystr :=
  match digits with
  | O => []
  | S d => hex d (c / 16) ++ [hex_digit (c mod 16)]
  end.

(** [repr] of one character inside the quotes [q]. Which characters
    above U+00FF are printable is a matter of the Unicode database of
    the interpreter: [printable] is [str.isprintable] on them. *)
Definition repr_char (printable : N → bool) (q c : N) : pystr :=
  if c =? 92 then [92; 92]
  else if c =? q then [92; q]
  else if c =? 10 then lit "\n"
  else if c =? 13 then lit "\r"
  else if c =? 9 then lit "\t"
  else if (c <? 32) || ((127 <=? c) && (c <=? 160)) || (c =? 173)
  then lit "\x" ++ hex 2 c
  else if c <? 256 then [c]
  else if printable c then [c]
  else if c <? 65536 then lit "\u" ++ hex 4 c
  else lit "\U" ++ hex 8 c.

(** [repr(s)] of a string: single quotes, unless the string has a single
    quote and no double quote. *)
Definition repr_str (printable : N → bool) (s : pystr) : pystr :=
  let q := if bool_decide (ch_squote ∈ s) && negb (bool_decide (ch_dquote ∈ s))
           then ch_dquote else ch_squote in
  [q] ++ concat (map (repr_char printable q) s) ++ [q].

(** [OSError(errno, strerror, filename)] and its [str]. *)
Definition os_error (printable : N → bool) (e : errno) (filename : pystr) : exn :=
  {| exn_cls := errno_class e;
     exn_str := lit "[Errno " ++ str_of_N (errno_number e) ++ lit "] "
                ++ strerror e ++ lit ": " ++ repr_str printable filename |}.

(** *** What the tree does not hold *)

(** An exception of a call on the file system: an instance of
    [OSError] or of [ValueError] (for a path with a NUL; [UnicodeError],
    for a path or a text that cannot be encoded or decoded, is a
    subclass of it). *)
Definition is_io (c : exn_class) : bool := is_OSError c || is_ValueError c.

Definition io_exn : Type := { e : exn | is_io (exn_cls e) = true }.

(** The calls the handlers make on a path. *)
Inductive call := Stat | Listdir | Mkdir | OpenRead | OpenWrite.

(** The system under the tree: permissions, limits on names, the
    encoding, the devices behind special files, the room left on the
    disk. None of it is computed here; a system says, call by call,
    what it does for such a reason, and every statement below holds for
    every system.
    - [isprintable c]: [str.isprintable] on a character above U+00FF;
    - [refuses c path]: the exception with which the call [c] on [path]
      fails for a reason the tree does not hold (no permission to read
      or search a directory or to write in it, a name that is too long,
      a path with a NUL, a file whose bytes are no UTF-8), [None] when
      the tree decides;
    - [read_special path]: what opening and reading the special file
      at [path] gives;
    - [write_special path content]: the exception with which writing
      to the special file at [path] fails, [None] when the device takes
      the text;
    - [write_fails path content]: the exception with which [write] or
      the closing of the file fails once [open] has created or emptied
      it (text that cannot be encoded, a full disk), and the characters
      the file is left with;
    - [recursion_limit]: how many times [os.makedirs] can call itself
      before the interpreter's recursion limit is reached, which is the
      limit (1000 by default) less the frames in use when the handler
      runs. *)
Record system := {
  isprintable : N → bool;
  refuses : call → pystr → option io_exn;
  read_special : pystr → io_exn + pystr;
  write_special : pystr → pystr → option io_exn;
  write_fails : pystr → pystr → option (io_exn * pystr);
  recursion_limit : nat;
}.

(** *** Path resolution *)

Definition node_at (t : tree) (p : list pystr) : option node :=
  match p with
  | [] => Some Dir
  | _ => t !! p
  end.

Definition dot : pystr := lit ".".
Definition dotdot : pystr := lit "..".

(** From the directory [cur], follow the components [cs]; each step
    needs the place it leaves to be a directory. *)
Fixpoint walk (t : tree) (cur : list pystr) (cs : list pystr) : errno + list pystr :=
  match cs with
  | [] => inr cur
  | c :: cs' =>
      match node_at t cur with
      | Some Dir =>
          if bool_decide (c = [] ∨ c = dot) then walk t cur cs'
          else if bool_decide (c = dotdot) then walk t (removelast cur) cs'
          else match node_at t (cur ++ [c]) with
               | Some _ => walk t (cur ++ [c]) cs'
               | None => inl ENOENT
               end
      | Some _ => inl ENOTDIR
      | None => inl ENOENT
      end
  end.

Definition components (path : pystr) : list pystr := split_on ch_slash path.

(** Where a path leads in the tree and what is there. *)
Definition stat (t : tree) (path : pystr) : errno + (list pystr * node) :=
  if nonempty path then
    match walk t [] (components path) with
    | inl e => inl e
    | inr p => match node_at t p with
               | Some n => inr (p, n)
               | None => inl ENOENT
               end
    end
  else inl ENOENT.

(** [os.path.exists], [os.path.isfile], [os.path.isdir]: the answer is
    [False] whenever [os.stat] fails, with an [OSError] or with a
    [ValueError], which are all it raises. *)
Definition exists_ (sys : system) (t : tree) (path : pystr) : bool :=
  match refuses sys Stat path, stat t path with
  | None, inr _ => true
  | _, _ => false
  end.

Definition isfile (sys : system) (t : tree) (path : pystr) : bool :=
  match refuses sys Stat path, stat t path with
  | None, inr (_, File _) => true
  | _, _ => false
  end.

Definition isdir (sys : system) (t : tree) (path : pystr) : bool :=
  match refuses sys Stat path, stat t path with
  | None, inr (_, Dir) => true
  | _, _ => false
  end.

(** The names in the directory at [p], in the order the system gives
    them. *)
Definition children (t : tree) (p : list pystr) : list pystr :=
  omap (λ kn : list pystr * node,
          match kn.1 with
          | [] => None
          | _ => if bool_decide (removelast kn.1 = p) then last kn.1 else None
          end)
       (map_to_list t).

(** [os.listdir]. *)
Definition listdir (sys : system) (t : tree) (path : pystr) : exn + list pystr :=
  match refuses sys Listdir path with
  | Some e => inl (`e)
  | None =>
      match stat t path with
      | inl e => inl (os_error (isprintable sys) e path)
      | inr (p, Dir) => inr (children t p)
      | inr _ => inl (os_error (isprintable sys) ENOTDIR path)
      end
  end.

Fixpoint drop_empty_prefix (l : list pystr) : list pystr :=
  match l with
  | [] :: l' => drop_empty_prefix l'
  | _ => l
  end.

(** A path's components without the empty ones its trailing slashes
    leave. *)
Definition drop_trailing_empty (cs : list pystr) : list pystr :=
  reverse (drop_empty_prefix (reverse cs)).

(** The directory a path's last component lives in, and that component:
    [inl] when resolution fails on the way. *)
Definition parent_and_name (t : tree) (cs : list pystr) : errno + (list pystr * pystr) :=
  match walk t [] (removelast cs) with
  | inl e => inl e
  | inr cur =>
      match node_at t cur with
      | Some Dir => inr (cur, default [] (last cs))
      | Some _ => inl ENOTDIR
      | None => inl ENOENT
      end
  end.

(** Where [mkdir(path)] puts the new directory in the tree. *)
Definition place_to_make (t : tree) (path : pystr) : errno + list pystr :=
  let cs := drop_trailing_empty (components path) in
  if negb (nonempty path) then inl ENOENT
  else if negb (nonempty cs) then inl EEXIST
  else
    match parent_and_name t cs with
    | inl e => inl e
    | inr (cur, name) =>
        if bool_decide (name = dot ∨ name = dotdot) then inl EEXIST
        else match t !! (cur ++ [name]) with
             | Some _ => inl EEXIST
             | None => inr (cur ++ [name])
             end
    end.

(** [mkdir(path)]. *)
Definition mkdir (sys : system) (t : tree) (path : pystr) : exn + tree :=
  match refuses sys Mkdir path with
  | Some e => inl (`e)
  | None =>
      match place_to_make t path with
      | inl e => inl (os_error (isprintable sys) e path)
      | inr p => inr (<[p := Dir]> t)
      end
  end.

(** Reading in text mode with universal newlines: a carriage return,
    with the newline after it if there is one, is read as a newline. *)
Fixpoint universal_newlines (s : pystr) : pystr :=
  match s with
  | [] => []
  | c :: s' =>
      if c =? 13 then
        10 :: match s' with
              | c' :: s'' => if c' =? 10 then universal_newlines s''
                             else universal_newlines s'
              | [] => []
              end
      else c :: universal_newlines s'
  end.

(** [open(path, 'r', encoding='utf-8')] and [read()]: the whole text. *)
Definition read_text (sys : system) (t : tree) (path : pystr) : exn + pystr :=
  match refuses sys OpenRead path with
  | Some e => inl (`e)
  | None =>
      match stat t path with
      | inl e => inl (os_error (isprintable sys) e path)
      | inr (_, File content) => inr (universal_newlines content)
      | inr (_, Dir) => inl (os_error (isprintable sys) EISDIR path)
      | inr (_, Special) =>
          match read_special sys path with
          | inl e => inl (`e)
          | inr text => inr text
          end
      end
  end.

(** What [open(path, 'w')] opens: a regular file of the tree, there
    already or not, or a special file. *)
Inductive place :=
  | Regular (p : list pystr)
  | Device.

Definition place_to_write (t : tree) (path : pystr) : errno + place :=
  let cs := components path in
  let cs' := drop_trailing_empty cs in
  if negb (nonempty path) then inl ENOENT
  else if negb (nonempty cs') then inl EISDIR
  else
    match parent_and_name t cs' with
    | inl e => inl e
    | inr (cur, name) =>
        if bool_decide (last cs = Some []) then inl EISDIR
        else if bool_decide (name = dot ∨ name = dotdot) then inl EISDIR
        else match t !! (cur ++ [name]) with
             | Some Dir => inl EISDIR
             | Some Special => inr Device
             | Some (File _) | None => inr (Regular (cur ++ [name]))
             end
    end.

(** [open(path, 'w', encoding='utf-8')], [write(content)] and the
    closing of the file. When [open] succeeds on a regular file, the
    file is there and empty from then on; [write] and the closing then
    fill it, or fail and leave in it what got through. *)
Definition write_text (sys : system) (path content : pystr) : M tree unit :=
  λ t,
  match refuses sys OpenWrite path with
  | Some e => (Raised (`e), t)
  | None =>
      match place_to_write t path with
      | inl e => (Raised (os_error (isprintable sys) e path), t)
      | inr Device =>
          match write_special sys path content with
          | Some e => (Raised (`e), t)
          | None => (Returned tt, t)
          end
      | inr (Regular p) =>
          match write_fails sys path content with
          | Some (e, rest) => (Raised (`e), <[p := File rest]> t)
          | None => (Returned tt, <[p := File content]> t)
          end
      end
  end.

(** *** posixpath *)

Definition all_slashes (s : pystr) : bool := forallb (λ c, c =? ch_slash) s.

Fixpoint drop_slashes (s : pystr) : pystr :=
  match s with
  | c :: s' => if c =? ch_slash then drop_slashes s' else s
  | [] => []
  end.

(** [s.rstrip('/')]. *)
Definition rstrip_slash (s : pystr) : pystr := reverse (drop_slashes (reverse s)).

Fixpoint upto_slash (s : pystr) : pystr :=
  match s with
  | c :: s' => if c =? ch_slash then [] else c :: upto_slash s'
  | [] => []
  end.

(** [posixpath.split]: cut after the last slash; the head loses its
    trailing slashes unless it has nothing else. *)
Definition path_split (p : pystr) : pystr * pystr :=
  let tail := reverse (upto_slash (reverse p)) in
  let head := take (length p - length tail) p in
  (if nonempty head && negb (all_slashes head) then rstrip_slash head else head, tail).

(** [posixpath.dirname]. *)
Definition dirname (p : pystr) : pystr := (path_split p).1.

(** [posixpath.join(a, b)]. *)
Definition path_join (a b : pystr) : pystr :=
  if startswith [ch_slash] b then b
  else if negb (nonempty a) || bool_decide (last a = Some ch_slash) then a ++ b
  else a ++ [ch_slash] ++ b.

(** *** [os.makedirs(name, exist_ok=True)] *)

(** The [mkdir] at the end of [makedirs]: an [OSError] is let pass when
    the directory is there. *)
Definition mkdir_exist_ok (sys : system) (name : pystr) : M tree unit :=
  λ t, match mkdir sys t name with
       | inr t' => (Returned tt, t')
       | inl e => if is_OSError (exn_cls e) && isdir sys t name then (Returned tt, t)
                  else (Raised e, t)
       end.

(** The head and the tail [makedirs] works with: those of the name, or
    of its head when the name ends in a slash. *)
Definition head_tail (name : pystr) : pystr * pystr :=
  let '(head, tail) := path_split name in
  if nonempty tail then (head, tail) else path_split head.

Global Arguments path_split : simpl never.
Global Arguments head_tail : simpl never.

(** What the interpreter raises when the calls are nested too deep. *)
Definition recursion_error : exn :=
  {| exn_cls := CRecursionError; exn_str := lit "maximum recursion depth exceeded" |}.

(** [makedirs] calls itself on the head of the name when the head is
    not there; [depth] is the number of nested calls there is room
    for. *)
Fixpoint makedirs_depth (sys : system) (depth : nat) (name : pystr) : M tree unit :=
  λ t,
  let '(head, tail) := head_tail name in
  if nonempty head && nonempty tail && negb (exists_ sys t head) then
    match depth with
    | O => (Raised recursion_error, t)
    | S depth' =>
        let after (t1 : tree) :=
          if bool_decide (tail = dot) then (Returned tt, t1)
          else mkdir_exist_ok sys name t1 in
        match makedirs_depth sys depth' head t with
        | (Returned _, t1) => after t1
        | (Raised e, t1) =>
            match exn_cls e with
            | CFileExistsError => after t1
            | _ => (Raised e, t1)
            end
        end
    end
  else mkdir_exist_ok sys name t.

Definition makedirs (sys : system) (name : pystr) : M tree unit :=
  makedirs_depth sys (recursion_limit sys) name.

End Posix.

(** ** The part of Python's [eval] the development computes with *)

Module Eval.

(** Values: integers, booleans, lists of values, and any other object,
    known by its [str]. *)
Inductive pyval :=
  | VInt (z : Z)
  | VBool (b : bool)
  | VList (items : list pyval)
  | VOther (str : pystr).

Fixpoint repr_val (v : pyval) : pystr :=
  match v with
  | VInt z => str_of_Z z
  | VBool true => lit "True"
  | VBool false => lit "False"
  | VList items => lit "[" ++ join (lit ", ") (map repr_val items) ++ lit "]"
  | VOther s => s
  end.

(** [str(v)], which is what an f-string puts in for [{v}]. *)
Definition str_val (v : pyval) : pystr := repr_val v.

Inductive tok :=
  | TNum (n : N) | TIdent (s : pystr)
  | TPlus | TMinus | TStar | TDoubleStar | TFloorDiv | TPercent | TCaret
  | TLt | TGt | TLe | TGe | TEqEq | TNe
  | TLParen | TRParen | TLBracket | TRBracket | TComma.

Definition is_digit (c : N) : bool := (48 <=? c) && (c <=? 57).

Definition is_ident_start (c : N) : bool :=
  ((65 <=? c) && (c <=? 90)) || ((97 <=? c) && (c <=? 122)) || (c =? 95).

Definition is_ident_char (c : N) : bool := is_ident_start c || is_digit c.

Fixpoint span (p : N → bool) (s : pystr) : pystr * pystr :=
  match s with
  | c :: s' => if p c then let '(a, b) := span p s' in (c :: a, b) else ([], s)
  | [] => ([], [])
  end.

Definition number_value (ds : pystr) : N :=
  foldl (λ acc d, 10 * acc + (d - 48)) 0 ds.

(** A decimal integer literal: digits not followed by a letter, a digit,
    an underscore or a dot, and with no leading zero unless it is zero. *)
Definition lex_number (s : pystr) : option (N * pystr) :=
  let '(ds, rest) := span is_digit s in
  match rest with
  | c :: _ => if is_ident_char c || (c =? 46) then None
              else if startswith [48] ds && negb (number_value ds =? 0) then None
              else Some (number_value ds, rest)
  | [] => if startswith [48] ds && negb (number_value ds =? 0) then None
          else Some (number_value ds, rest)
  end.

(** The tokens of an expression; [None] for text outside the modelled
    part of the language. Each call takes at least one character, so
    [fuel = length s] is enough. *)
Fixpoint lex (fuel : nat) (s : pystr) : option (list tok) :=
  match fuel, s with
  | _, [] => Some []
  | O, _ => None
  | S f, c :: s' =>
      let one (t : tok) (rest : pystr) := option_map (cons t) (lex f rest) in
      if (c =? 32) || (c =? 9) then lex f s'
      else if is_digit c then
        match lex_number s with
        | Some (n, rest) => one (TNum n) rest
        | None => None
        end
      else if is_ident_start c then
        let '(name, rest) := span is_ident_char s in
        match rest with
        | c' :: _ => if c' <? 128 then one (TIdent name) rest else None
        | [] => one (TIdent name) rest
        end
      else match c, s' with
           | 42, 42 :: r => one TDoubleStar r
           | 47, 47 :: r => one TFloorDiv r
           | 60, 61 :: r => one TLe r
           | 62, 61 :: r => one TGe r
           | 61, 61 :: r => one TEqEq r
           | 33, 61 :: r => one TNe r
           | 43, _ => one TPlus s'
           | 45, _ => one TMinus s'
           | 42, _ => one TStar s'
           | 37, _ => one TPercent s'
           | 94, _ => one TCaret s'
           | 60, 60 :: _ => None
           | 62, 62 :: _ => None
           | 60, _ => one TLt s'
           | 62, _ => one TGt s'
           | 40, _ => one TLParen s'
           | 41, _ => one TRParen s'
           | 91, _ => one TLBracket s'
           | 93, _ => one TRBracket s'
           | 44, _ => one TComma s'
           | _, _ => None
           end
  end.

Inductive binop := Add | Sub | Mul | FloorDiv | Mod | Pow | BitXor.
Inductive cmpop := Lt | Gt | Le | Ge | Eq | Ne.

Inductive expr :=
  | EInt (z : Z)
  | ENeg (e : expr)
  | EPos (e : expr)
  | EBin (op : binop) (a b : expr)
  | ECmp (op : cmpop) (a b : expr)
  | EList (items : list expr)
  | ECall (f : pystr) (args : list expr).

Abbreviation parser := (list tok → option (expr * list tok)).

(** [sub (op sub)*], left associative. *)
Fixpoint chain (fuel : nat) (sub : parser) (ops : tok → option binop)
    (acc : expr) (ts : list tok) : option (expr * list tok) :=
  match fuel with
  | O => None
  | S f =>
      match ts with
      | t :: r =>
          match ops t with
          | Some op =>
              match sub r with
              | Some (e, r') => chain f sub ops (EBin op acc e) r'
              | None => None
              end
          | None => Some (acc, ts)
          end
      | [] => Some (acc, [])
      end
  end.

Definition left_assoc (fuel : nat) (sub : parser) (ops : tok → option binop) : parser :=
  λ ts, match sub ts with
        | Some (e, r) => chain fuel sub ops e r
        | None => None
        end.

(** [factor: ('+'|'-') factor | power] and [power: atom ['**' factor]]. *)
Fixpoint factor (fuel : nat) (atom : parser) (ts : list tok) : option (expr * list tok) :=
  match fuel with
  | O => None
  | S f =>
      match ts with
      | TMinus :: r =>
          match factor f atom r with Some (e, r') => Some (ENeg e, r') | None => None end
      | TPlus :: r =>
          match factor f atom r with Some (e, r') => Some (EPos e, r') | None => None end
      | _ =>
          match atom ts with
          | Some (b, TDoubleStar :: r) =>
              match factor f atom r with
              | Some (e, r') => Some (EBin Pow b e, r')
              | None => None
              end
          | res => res
          end
      end
  end.

(** One or more expressions separated by commas. *)
Fixpoint items (fuel : nat) (sub : parser) (ts : list tok) : option (list expr * list tok) :=
  match fuel with
  | O => None
  | S f =>
      match sub ts with
      | Some (e, TComma :: r) =>
          match items f sub r with
          | Some (es, r') => Some (e :: es, r')
          | None => None
          end
      | Some (e, r) => Some ([e], r)
      | None => None
      end
  end.

Definition term_op (t : tok) : option binop :=
  match t with TStar => Some Mul | TFloorDiv => Some FloorDiv | TPercent => Some Mod | _ => None end.
Definition arith_op (t : tok) : option binop :=
  match t with TPlus => Some Add | TMinus => Some Sub | _ => None end.
Definition xor_op (t : tok) : option binop :=
  match t with TCaret => Some BitXor | _ => None end.
Definition cmp_op (t : tok) : option cmpop :=
  match t with
  | TLt => Some Lt | TGt => Some Gt | TLe => Some Le | TGe => Some Ge
  | TEqEq => Some Eq | TNe => Some Ne | _ => None
  end.

(** An expression: one comparison at most, over [^], over [+ -], over
    [* // %], over the unary signs, over [**], over the atoms (a number,
    a parenthesised expression, a list display, a call). *)
Fixpoint parse_expr (fuel : nat) (ts : list tok) : option (expr * list tok) :=
  match fuel with
  | O => None
  | S f =>
      let atom : parser := λ ts,
        match ts with
        | TNum n :: r => Some (EInt (Z.of_N n), r)
        | TLParen :: r =>
            match parse_expr f r with
            | Some (e, TRParen :: r') => Some (e, r')
            | _ => None
            end
        | TLBracket :: TRBracket :: r => Some (EList [], r)
        | TLBracket :: r =>
            match items f (parse_expr f) r with
            | Some (es, TRBracket :: r') => Some (EList es, r')
            | _ => None
            end
        | TIdent fn :: TLParen :: r =>
            match items f (parse_expr f) r with
            | Some (es, TRParen :: r') => Some (ECall fn es, r')
            | _ => None
            end
        | _ => None
        end in
      let term := left_assoc f (factor f atom) term_op in
      let arith := left_assoc f term arith_op in
      let xor := left_assoc f arith xor_op in
      match xor ts with
      | Some (a, t :: r) =>
          match cmp_op t with
          | Some op =>
              match xor r with
              | Some (b, r') =>
                  match r' with
                  | t' :: _ => match cmp_op t' with
                               | Some _ => None
                               | None => Some (ECmp op a b, r')
                               end
                  | [] => Some (ECmp op a b, r')
                  end
              | None => None
              end
          | None => Some (a, t :: r)
          end
      | res => res
      end
  end.

(** The integers the model computes with: those under [2 ^ 14000],
    which every Python prints in full. *)
Definition small (z : Z) : bool := (Z.log2 (Z.abs z) <? 14000)%Z.

Definition keep_small (z : Z) : option Z := if small z then Some z else None.

Definition eval_binop (op : binop) (a b : Z) : option Z :=
  match op with
  | Add => keep_small (a + b)%Z
  | Sub => keep_small (a - b)%Z
  | Mul => keep_small (a * b)%Z
  | FloorDiv => if (b =? 0)%Z then None else keep_small (a / b)%Z
  | Mod => if (b =? 0)%Z then None else keep_small (a mod b)%Z
  | Pow => if (b <? 0)%Z || (14000 <? b * (Z.log2 (Z.abs a) + 1))%Z then None
           else keep_small (a ^ b)%Z
  | BitXor => keep_small (Z.lxor a b)
  end.

Definition eval_cmpop (op : cmpop) (a b : Z) : bool :=
  match op with
  | Lt => (a <? b)%Z | Gt => (b <? a)%Z | Le => (a <=? b)%Z | Ge => (b <=? a)%Z
  | Eq => (a =? b)%Z | Ne => negb (a =? b)%Z
  end.

(** The builtins [calculate] puts in the namespace over the names of
    [math]; the calls modelled are those on integers. *)
Definition allowed_builtins : list pystr :=
  [lit "abs"; lit "round"; lit "min"; lit "max"; lit "sum"; lit "pow"].

Definition ints (vs : list pyval) : option (list Z) :=
  mapM (λ v, match v with VInt z => Some z | _ => None end) vs.

Definition call_builtin (f : pystr) (args : list pyval) : option pyval :=
  match ints args with
  | Some zs =>
      if bool_decide (f = lit "abs") then
        match zs with [z] => Some (VInt (Z.abs z)) | _ => None end
      else if bool_decide (f = lit "max") then
        match zs with a :: b :: r => Some (VInt (foldl Z.max a (b :: r))) | _ => None end
      else if bool_decide (f = lit "min") then
        match zs with a :: b :: r => Some (VInt (foldl Z.min a (b :: r))) | _ => None end
      else if bool_decide (f = lit "pow") then
        match zs with
        | [a; b] => option_map VInt (eval_binop Pow a b)
        | _ => None
        end
      else None
  | None => None
  end.

(** The value of an expression, when it is an operation on small
    integers that returns; [None] for everything else. *)
Fixpoint eval_expr (e : expr) : option pyval :=
  let int_of (e : expr) : option Z :=
    match eval_expr e with Some (VInt z) => Some z | _ => None end in
  match e with
  | EInt z => option_map VInt (keep_small z)
  | ENeg a => option_map (λ z, VInt (- z)%Z) (int_of a)
  | EPos a => option_map VInt (int_of a)
  | EBin op a b =>
      match int_of a, int_of b with
      | Some x, Some y => option_map VInt (eval_binop op x y)
      | _, _ => None
      end
  | ECmp op a b =>
      match int_of a, int_of b with
      | Some x, Some y => Some (VBool (eval_cmpop op x y))
      | _, _ => None
      end
  | EList es =>
      option_map VList
        ((fix all (es : list expr) : option (list pyval) :=
            match es with
            | [] => Some []
            | e :: es' =>
                match eval_expr e, all es' with
                | Some v, Some vs => Some (v :: vs)
                | _, _ => None
                end
            end) es)
  | ECall f args =>
      match
        (fix all (es : list expr) : option (list pyval) :=
           match es with
           | [] => Some []
           | e :: es' =>
               match eval_expr e, all es' with
               | Some v, Some vs => Some (v :: vs)
               | _, _ => None
               end
           end) args
      with
      | Some vs => if bool_decide (f ∈ allowed_builtins) then call_builtin f vs else None
      | None => None
      end
  end.

(** The longest expression the model covers, in tokens: far below the
    limits the interpreter puts on the nesting of parentheses and on the
    depth of an expression, which are not modelled. *)
Definition max_tokens : nat := 100.

(** [eval(source, {"__builtins__": {}}, allowed_names)] where the model
    covers it. *)
Definition eval_modelled (source : pystr) : option pyval :=
  match lex (length source) source with
  | Some ts =>
      if decide (length ts ≤ max_tokens)%nat then
        match parse_expr (S (length ts)) ts with
        | Some (e, []) => eval_expr e
        | _ => None
        end
      else None
  | None => None
  end.

End Eval.

(** ** mcp_server.py *)

Module Server.
Import Posix Eval.

(** Python's comparison of strings: by code points, a proper prefix
    first. *)
Fixpoint str_leb (a b : pystr) : bool :=
  match a, b with
  | [], _ => true
  | _ :: _, [] => false
  | x :: a', y :: b' => (x <? y) || ((x =? y) && str_leb a' b')
  end.

Definition str_le (a b : pystr) : Prop := str_leb a b = true.

Global Instance str_le_dec : RelDecision str_le.
Proof. intros a b. unfold str_le. apply _. Defined.

(** [sorted(files)]. *)
Definition sorted (files : list pystr) : list pystr := merge_sort str_le files.

Definition file_marker : pystr := [128196].
Definition folder_marker : pystr := [128193].

(** File-system calls as steps of a handler. *)
Definition lift_exn {A} (r : exn + A) : outcome A :=
  match r with
  | inr a => Returned a
  | inl e => Raised e
  end.

Section Handlers.

(** The system the server runs on. *)
Context (sys : system).

Definition os_path_exists (path : pystr) : M tree bool :=
  λ t, (Returned (exists_ sys t path), t).

Definition os_listdir (path : pystr) : M tree (list pystr) :=
  λ t, (lift_exn (listdir sys t path), t).

Definition open_read (path : pystr) : M tree pystr :=
  λ t, (lift_exn (read_text sys t path), t).

Definition open_write (path content : pystr) : M tree unit :=
  write_text sys path content.

(** What [eval] does with a source text the model of [Eval] does not
    cover. *)
Context (beyond : pystr → outcome pyval).

Definition py_eval (source : pystr) : M tree pyval :=
  λ t, (match eval_modelled source with
        | Some v => Returned v
        | None => beyond source
        end, t).

(** The [try] block of [calculate]. *)
Definition calculate_try (expression : pystr) : M tree pystr :=
  do result <- py_eval expression;
  ret (lit "Result: " ++ expression ++ lit " = " ++ str_val result).

Definition calculate (expression : pystr) : M tree pystr :=
  try_except_Exception (calculate_try expression)
    (λ e, ret (lit "Calculation error: " ++ exn_str e)).

(** The body of [for item in os.listdir(directory)]. *)
Definition list_entry (t : tree) (directory : pystr) (files : list pystr) (item : pystr)
    : list pystr :=
  let item_path := path_join directory item in
  if isfile sys t item_path then files ++ [file_marker ++ lit " " ++ item]
  else if isdir sys t item_path then files ++ [folder_marker ++ lit " " ++ item ++ lit "/"]
  else files.

(** The [try] block of [list_files]. *)
Definition list_files_try (directory : pystr) : M tree pystr :=
  do found <- os_path_exists directory;
  if negb found then ret (lit "Directory does not exist: " ++ directory)
  else
    do listing <- os_listdir directory;
    do files <- (λ t, (Returned (foldl (list_entry t directory) [] listing), t));
    let files_list := join nl (sorted files) in
    ret (lit "Files in " ++ directory ++ lit ":" ++ nl ++ files_list).

Definition list_files (directory : pystr) : M tree pystr :=
  try_except_Exception (list_files_try directory)
    (λ e, ret (lit "Error listing files: " ++ exn_str e)).

(** The [try] block of [read_file]. *)
Definition read_file_try (filepath : pystr) : M tree pystr :=
  do found <- os_path_exists filepath;
  if negb found then ret (lit "File does not exist: " ++ filepath)
  else
    do content <- open_read filepath;
    ret (lit "Contents of " ++ filepath ++ lit ":" ++ nl ++ nl ++ content).

Definition read_file (filepath : pystr) : M tree pystr :=
  try_except_Exception (read_file_try filepath)
    (λ e, ret (lit "Error reading file: " ++ exn_str e)).

(** The [try] block of [write_file]. *)
Definition write_file_try (filepath content : pystr) : M tree pystr :=
  let directory := dirname filepath in
  (if nonempty directory then makedirs sys directory else ret tt) ;;
  open_write filepath content ;;
  ret (lit "Successfully wrote " ++ str_of_N (N.of_nat (length content))
       ++ lit " characters to " ++ filepath).

Definition write_file (filepath content : pystr) : M tree pystr :=
  try_except_Exception (write_file_try filepath content)
    (λ e, ret (lit "Error writing file: " ++ exn_str e)).

End Handlers.

End Server.

(** ** Statements the code is compared with, and sample data *)

Import Client Posix Eval Server.

(** "Split on spaces and drop the empty tokens". *)
Definition split_spaces_nonempty (s : pystr) : list pystr :=
  filter (λ w, w ≠ []) (split_on ch_space s).

(** The tokens still to come when [cur] has been read into the current
    argument and [s] is left to scan. *)
Definition tokens_from (cur s : pystr) : list pystr :=
  match split_on ch_space s with
  | w :: ws => filter (λ w, w ≠ []) ((cur ++ w) :: ws)
  | [] => []
  end.

(** The world once the prompt is out. *)
Definition prompted {S} (w : world S) : world S :=
  {| tools := tools w; sess := sess w;
     trace := trace w ++ [Prompted (nl ++ lit "mcp> ")] |}.

(** A session whose server is gone: every request raises. *)
Definition closed_session : ClientSession unit :=
  {| session_list_tools := λ s,
       (Raised {| exn_cls := CMcpError; exn_str := lit "Connection closed" |}, s);
     session_call_tool := λ _ _ s,
       (Raised {| exn_cls := CMcpError; exn_str := lit "Connection closed" |}, s) |}.

(** A session whose every tool call comes back with the result
    [result] and which lists the tools [ts]. *)
Definition fixed_session (ts : list Tool) (result : CallToolResult) : ClientSession unit :=
  {| session_list_tools := λ s, (Returned {| result_tools := ts |}, s);
     session_call_tool := λ _ _ s, (Returned result, s) |}.

(** A client that has made no request yet, with [ts] cached. *)
Definition fresh (ts : list Tool) : world unit :=
  {| tools := ts; sess := tt; trace := [] |}.

(** Two tool descriptors. *)
Definition tool_calculate : Tool :=
  {| name := lit "calculate"; description := Some (lit "Perform basic mathematical calculations") |}.
Definition tool_read_file : Tool :=
  {| name := lit "read_file"; description := None |}.

(** The characters a sentence of the specification's grammar for
    [calculate] can hold: digits and the point of numbers, the operators
    [+ - * / ^], parentheses, the comma between arguments, blanks, and
    the letters, digits and underscores of function names. *)
Definition spec_grammar_char (c : N) : bool :=
  is_digit c || (c =? 46) || (c =? 43) || (c =? 45) || (c =? 42) || (c =? 47)
  || (c =? 94) || (c =? 40) || (c =? 41) || (c =? 44) || (c =? 32) || (c =? 9)
  || is_ident_char c.

Definition in_spec_grammar_alphabet (s : pystr) : bool := forallb spec_grammar_char s.

(** The text a handler gives for a [try] block that ended in [r], with
    the handler's own prefix for the failure. *)
Definition text_of (prefix : pystr) (r : outcome pystr) : pystr :=
  match r with
  | Returned text => text
  | Raised e => prefix ++ exn_str e
  end.



(** How an entry of a directory is shown: a regular file with the file
    marker and its name, a directory with the folder marker, its name
    and a slash, anything else not at all. *)
Definition rendered (sys : system) (t : tree) (directory item : pystr) : option pystr :=
  if isfile sys t (path_join directory item) then Some (file_marker ++ lit " " ++ item)
  else if isdir sys t (path_join directory item)
       then Some (folder_marker ++ lit " " ++ item ++ lit "/")
       else None.

(** A small tree: the directory [a] with a file, a directory and a
    socket in it, and the file [f]. *)
Definition sample_tree : tree :=
  <[ [lit "a"] := Dir ]>
    (<[ [lit "a"; lit "x.txt"] := File (lit "hello") ]>
       (<[ [lit "a"; lit "sub"] := Dir ]>
          (<[ [lit "a"; lit "sock"] := Special ]>
             (<[ [lit "f"] := File (lit "data") ]> ∅)))).

(** A name a directory entry can have. *)
Definition plain_name (c : pystr) : Prop :=
  c ≠ [] ∧ (ch_slash ∉ c) ∧ c ≠ dot ∧ c ≠ dotdot.

Global Instance plain_name_dec c : Decision (plain_name c).
Proof. unfold plain_name. apply _. Defined.

(** The separator of the components of a path. *)
Definition sep : pystr := [ch_slash].

(** A name a file can be opened under. *)
Definition file_name (f : pystr) : Prop := f ≠ [] ∧ f ≠ dot ∧ f ≠ dotdot.

Global Instance file_name_dec f : Decision (file_name f).
Proof. unfold file_name. apply _. Defined.





(** [OSError(errno, strerror, filename)] as an exception of a call. *)
Definition io_error (e : errno) (filename : pystr) : io_exn :=
  exist _ (os_error (λ _, true) e filename)
    match e return is_io (errno_class e) = true with
    | ENOENT | ENXIO | EACCES | EEXIST | ENOTDIR | EISDIR | ENAMETOOLONG => eq_refl
    end.

(** A system that refuses nothing: every call is decided by the tree
    and every write goes through; its special files are sockets, which
    [open] refuses; [os.makedirs] has room for 900 nested calls. *)
Definition permissive : system :=
  {| isprintable := λ _, true;
     refuses := λ _ _, None;
     read_special := λ path, inl (io_error ENXIO path);
     write_special := λ path _, Some (io_error ENXIO path);
     write_fails := λ _ _, None;
     recursion_limit := 900 |}.

(** The same system, where the directory at [directory] cannot be read
    (it has no read permission). *)
Definition unreadable (directory : pystr) : system :=
  {| isprintable := λ _, true;
     refuses := λ c path,
       match c with
       | Listdir => if bool_decide (path = directory)
                    then Some (io_error EACCES path) else None
       | _ => None
       end;
     read_special := λ path, inl (io_error ENXIO path);
     write_special := λ path _, Some (io_error ENXIO path);
     write_fails := λ _ _, None;
     recursion_limit := 900 |}.

(** The same system, where the directory at [directory] cannot be
    searched (it has no execute permission): [os.stat] is refused on
    every path under it. *)
Definition unsearchable (directory : pystr) : system :=
  {| isprintable := λ _, true;
     refuses := λ c path,
       match c with
       | Stat => if startswith (directory ++ sep) path
                 then Some (io_error EACCES path) else None
       | _ => None
       end;
     read_special := λ path, inl (io_error ENXIO path);
     write_special := λ path _, Some (io_error ENXIO path);
     write_fails := λ _ _, None;
     recursion_limit := 900 |}.

(** The same system as [permissive], with the zero width space U+200B
    and the line separator U+2028 not printable, as in the Unicode
    database. *)
Definition unicode : system :=
  {| isprintable := λ c, negb ((c =? 8203) || (c =? 8232));
     refuses := λ _ _, None;
     read_special := λ path, inl (io_error ENXIO path);
     write_special := λ path _, Some (io_error ENXIO path);
     write_fails := λ _ _, None;
     recursion_limit := 900 |}.




(** The same system as [permissive], where a component of a path has
    at most 255 characters: every call on a path with a longer one
    fails. *)
Definition name_max : system :=
  {| isprintable := λ _, true;
     refuses := λ _ path,
       if forallb (λ c, length c <=? 255)%nat (components path) then None
       else Some (io_error ENAMETOOLONG path);
     read_special := λ path, inl (io_error ENXIO path);
     write_special := λ path _, Some (io_error ENXIO path);
     write_fails := λ _ _, None;
     recursion_limit := 900 |}.


(** What [write] raises on a text with a lone surrogate. *)
Definition surrogates_not_allowed : io_exn :=
  exist _ {| exn_cls := CUnicodeEncodeError;
             exn_str := lit "'utf-8' codec can't encode character '\ud800' in position 0: surrogates not allowed" |}
    eq_refl.

(** The same system as [permissive], with UTF-8 as it is: a text that
    starts with the surrogate U+D800 cannot be written, and the file
    [open] has emptied stays empty. *)
Definition strict_utf8 : system :=
  {| isprintable := λ _, true;
     refuses := λ _ _, None;
     read_special := λ path, inl (io_error ENXIO path);
     write_special := λ path _, Some (io_error ENXIO path);
     write_fails := λ _ content,
       if bool_decide (head content = Some 55296)
       then Some (surrogates_not_allowed, []) else None;
     recursion_limit := 900 |}.

(** The tool call a turn of the command loop can issue: on one of the
    four tools, with the keys of that tool, and with an expression, a
    file path and a content that are not empty. *)
Definition loop_call (call : pystr * dict) : Prop :=
  (∃ expression, expression ≠ [] ∧
     call = (lit "calculate", {[ lit "expression" := expression ]}))
  ∨ (∃ directory, directory ≠ [] ∧
       call = (lit "list_files", {[ lit "directory" := directory ]}))
  ∨ (∃ filepath, filepath ≠ [] ∧
       call = (lit "read_file", {[ lit "filepath" := filepath ]}))
  ∨ (∃ filepath content, filepath ≠ [] ∧ content ≠ [] ∧
       call = (lit "write_file",
               <[ lit "filepath" := filepath ]> {[ lit "content" := content ]})).

(** A session that raises nothing but instances of [Exception]. *)
Definition raises_Exception_only {S} (session : ClientSession S) : Prop :=
  ∀ tool_name arguments s e,
    (session_call_tool session tool_name arguments s).1 = Raised e →
    is_Exception (exn_cls e) = true.

(** The calls of the demonstration, in order. *)
Definition demo_calls : list (pystr * dict) :=
  map (λ expr, (lit "calculate", {[ lit "expression" := expr ]})) demo_expressions
  ++ [(lit "list_files", {[ lit "directory" := lit "." ]});
      (lit "write_file",
       <[ lit "filepath" := lit "test_file.txt" ]> {[ lit "content" := test_content ]});
      (lit "read_file", {[ lit "filepath" := lit "test_file.txt" ]})].

(** The events of one turn in which [input] raised [e], an instance of
    [Exception]. *)
Definition failed_input_events (e : exn) : list event :=
  [Prompted (nl ++ lit "mcp> "); Printed (lit "Error: " ++ exn_str e)].

(** A word of a command line: not empty, and without blank or quote. *)
Definition word (w : pystr) : Prop :=
  w ≠ [] ∧ (ch_space ∉ w) ∧ (ch_dquote ∉ w) ∧ (ch_squote ∉ w).

Global Instance word_dec w : Decision (word w).
Proof. unfold word. apply _. Defined.

(** The computation [m], run from [w], returns and has issued the tool
    calls [calls], in that order. *)
Definition returns_with_calls {S} (m : M (world S) unit) (w : world S)
    (calls : list (pystr * dict)) : Prop :=
  ∃ w' events,
    m w = (Returned tt, w') ∧ trace w' = trace w ++ events ∧ calls_in events = calls.

(** What [input] raises at the end of the input. *)
Definition eof_error : exn :=
  {| exn_cls := CEOFError; exn_str := lit "EOF when reading a line" |}.

(** The two lines [interactive_session] starts with. *)
Definition session_banner : list event :=
  [Printed (nl ++ lit "=== Interactive MCP Client Session ===");
   Printed (lit "Type 'help' for available commands, 'quit' to exit")].

(** The carriage return, which reading a file in text mode turns into a
    newline. *)
Definition ch_return : N := 13.

(** What [write_file] answers when the file is written. *)
Definition written (filepath content : pystr) : pystr :=
  lit "Successfully wrote " ++ str_of_N (N.of_nat (length content))
  ++ lit " characters to " ++ filepath.



(** * Properties *)

(** ** Strings *)

Lemma join_cons s p q rest : join s (p :: q :: rest) = p ++ s ++ join s (q :: rest).
Proof. done. Qed.


(** ** [parse_command_args] *)

Lemma split_on_nonempty sep s : split_on sep s ≠ [].
Proof. destruct s as [|c s]; simpl; [done|]. destruct (c =? sep); [done|]. by destruct (split_on sep s). Qed.

Lemma tokens_from_nil s : tokens_from [] s = split_spaces_nonempty s.
Proof. unfold tokens_from, split_spaces_nonempty. by destruct (split_on ch_space s). Qed.

Lemma scan_unquoted s : ∀ st,
  in_quotes st = false → ch_dquote ∉ s → ch_squote ∉ s →
  scan_finish (foldl scan_char st s) = args st ++ tokens_from (current_arg st) s.
Proof.
  induction s as [|c s IH]; intros st Hq Hd Hs.
  - unfold scan_finish, tokens_from. simpl. rewrite app_nil_r.
    destruct (current_arg st) eqn:E; simpl.
    + by rewrite app_nil_r.
    + rewrite filter_cons_True; [done|discriminate].
  - apply not_elem_of_cons in Hd as [Hcd Hd]. apply not_elem_of_cons in Hs as [Hcs Hs].
    simpl foldl. unfold scan_char at 2. rewrite Hq. simpl negb. cbv iota.
    assert ((c =? ch_dquote) || (c =? ch_squote) = false) as ->.
    { apply orb_false_iff. split; apply N.eqb_neq; congruence. }
    unfold tokens_from at 1. simpl split_on.
    destruct (c =? ch_space) eqn:Esp.
    + destruct (current_arg st) as [|x cur] eqn:Ecur; simpl nonempty; cbv iota.
      * rewrite IH by done. rewrite Ecur. simpl.
        rewrite filter_cons_False by (intros H; by apply H).
        unfold tokens_from. by destruct (split_on ch_space s).
      * rewrite IH by done. simpl. rewrite tokens_from_nil, app_nil_r.
        rewrite filter_cons_True by discriminate.
        unfold split_spaces_nonempty. by rewrite <- app_assoc.
    + rewrite IH by done. simpl. unfold tokens_from.
      destruct (split_on ch_space s) as [|w ws] eqn:E.
      * by apply split_on_nonempty in E.
      * by rewrite <- app_assoc.
Qed.

Lemma scan_char_no_empty st c : [] ∉ args st → [] ∉ args (scan_char st c).
Proof.
  intros H. unfold scan_char.
  repeat (case_match; simpl; try done).
  rewrite elem_of_app, list_elem_of_singleton. intros [?|?]; [done|].
  by destruct (current_arg st).
Qed.

Lemma scan_no_empty s : ∀ st, [] ∉ args st → [] ∉ scan_finish (foldl scan_char st s).
Proof.
  induction s as [|c s IH]; intros st H; simpl.
  - unfold scan_finish. destruct (current_arg st) eqn:E; simpl; [done|].
    rewrite elem_of_app, list_elem_of_singleton. intros [?|?]; [done|congruence].
  - apply IH. by apply scan_char_no_empty.
Qed.

(** C8. On a string without quote characters [parse_command_args] gives
    exactly the maximal runs of non-space characters, in order, that is
    the result of splitting on spaces and dropping the empty tokens; and
    on every string whatsoever no element of its result is empty. *)
Theorem parse_command_args_split (s : pystr) :
  (ch_dquote ∉ s → ch_squote ∉ s → parse_command_args s = split_spaces_nonempty s)
  ∧ [] ∉ parse_command_args s.
Proof.
  split.
  - intros Hd Hs. unfold parse_command_args.
    rewrite scan_unquoted by done. simpl. apply tokens_from_nil.
  - apply scan_no_empty. simpl. apply not_elem_of_nil.
Qed.

(** C8 on two command lines, one without quotes and one with an empty
    quoted argument. *)
Lemma parse_command_args_split_witness :
  parse_command_args (lit " a.txt  hello world ")
  = [lit "a.txt"; lit "hello"; lit "world"]
  ∧ [] ∉ parse_command_args (lit "x '' y").
Proof.
  destruct (parse_command_args_split (lit " a.txt  hello world ")) as [H _].
  split.
  - rewrite H; [reflexivity| |]; vm_compute; intros Hin;
      repeat (apply elem_of_cons in Hin as [Hin|Hin]; [discriminate|]);
      by apply elem_of_nil in Hin.
  - apply (parse_command_args_split (lit "x '' y")).
Defined.

(** ** The client's [list_tools] and [call_tool] *)

Section ClientFacts.
Context {S : Type} (session : ClientSession S).

(** What [call_tool] does, by what the session's [call_tool] did. *)
Lemma call_tool_run tool_name arguments (w : world S) :
  call_tool session tool_name arguments w =
  match session_call_tool session tool_name arguments (sess w) with
  | (Returned result, s') =>
      (Returned (default (lit "No content returned") (first_text (content result))),
       {| tools := tools w; sess := s';
          trace := trace w ++ [CallToolRequest tool_name arguments] |})
  | (Raised e, s') =>
      if is_Exception (exn_cls e) then
        (Returned (lit "Error: " ++ exn_str e),
         {| tools := tools w; sess := s';
            trace := trace w ++ [CallToolRequest tool_name arguments;
                                 LoggedError (lit "Error calling tool " ++ tool_name
                                              ++ lit ": " ++ exn_str e)] |})
      else
        (Raised e,
         {| tools := tools w; sess := s';
            trace := trace w ++ [CallToolRequest tool_name arguments] |})
  end.
Proof.
  unfold call_tool, try_except_Exception, bind, await_call_tool.
  destruct (session_call_tool session tool_name arguments (sess w)) as [[result|e] s'].
  - by destruct (first_text (content result)).
  - destruct (is_Exception (exn_cls e)); [|done].
    unfold logger_error, emit, ret. simpl. by rewrite <- app_assoc.
Qed.

(** A loop whose body only leaves one event per item. *)
Lemma for_each_emits {A} (xs : list A) (body : A → M (world S) unit) (g : A → event) :
  (∀ x w, body x w = (Returned tt, {| tools := tools w; sess := sess w;
                                      trace := trace w ++ [g x] |})) →
  ∀ w, for_each xs body w =
       (Returned tt, {| tools := tools w; sess := sess w; trace := trace w ++ map g xs |}).
Proof.
  intros Hbody. induction xs as [|x xs IH]; intros w; simpl.
  - unfold ret. rewrite app_nil_r. by destruct w.
  - unfold bind. rewrite Hbody, IH. simpl. by rewrite <- app_assoc.
Qed.

(** C4. After a successful [list_tools], the cached tool list is exactly
    the sequence of descriptors the server returned: whatever was cached
    before is gone, nothing is merged. *)
Theorem list_tools_replaces_cache (w : world S) (result : ListToolsResult) (s' : S) :
  session_list_tools session (sess w) = (Returned result, s') →
  (list_tools session w).1 = Returned tt
  ∧ tools (list_tools session w).2 = result_tools result.
Proof.
  intros H. unfold list_tools, try_except_Exception, bind, await_list_tools.
  rewrite H. unfold set_tools, get_tools, print, emit. cbn beta iota.
  erewrite for_each_emits; [|intros; reflexivity]. done.
Qed.

(** C3, as the code has it. The text [call_tool] returns is the first
    text item of the tool's result (or a fixed text when there is none),
    whether or not the result reports a failure; an [Exception] raised by
    the session is caught and comes back as the text ["Error: " + str(e)]
    on the same channel; only an exception outside the [Exception]
    hierarchy leaves [call_tool]. *)
Theorem call_tool_returns_text tool_name arguments (w : world S) :
  (call_tool session tool_name arguments w).1 =
  match (session_call_tool session tool_name arguments (sess w)).1 with
  | Returned result =>
      Returned (default (lit "No content returned") (first_text (content result)))
  | Raised e =>
      if is_Exception (exn_cls e) then Returned (lit "Error: " ++ exn_str e)
      else Raised e
  end.
Proof.
  rewrite call_tool_run.
  destruct (session_call_tool session tool_name arguments (sess w)) as [[result|e] s']; simpl.
  - done.
  - by destruct (is_Exception (exn_cls e)).
Qed.

End ClientFacts.

(** C4 on a client that had two descriptors cached and a server that
    lists one. *)
Lemma list_tools_replaces_cache_witness :
  tools (list_tools (fixed_session [tool_calculate] {| content := []; isError := false |})
           (fresh [tool_read_file; tool_read_file])).2
  = [tool_calculate].
Proof.
  exact (proj2 (list_tools_replaces_cache
                  (fixed_session [tool_calculate] {| content := []; isError := false |})
                  (fresh [tool_read_file; tool_read_file])
                  {| result_tools := [tool_calculate] |} tt eq_refl)).
Defined.

(** C3 fails as stated: when the transport fails, [call_tool] raises
    nothing; it returns a text, and the same text a failing tool can
    return. *)
Lemma call_tool_conflates_failures :
  (call_tool closed_session (lit "read_file") {[ lit "filepath" := lit "a.txt" ]} (fresh [])).1
  = Returned (lit "Error: Connection closed")
  ∧ (call_tool (fixed_session [] {| content := [TextContent (lit "Error: Connection closed")];
                                    isError := true |})
       (lit "read_file") {[ lit "filepath" := lit "a.txt" ]} (fresh [])).1
    = Returned (lit "Error: Connection closed").
Proof. split; reflexivity. Qed.

(** ** The command loop *)

Ltac eval_lits :=
  repeat match goal with
         | |- context [lit ?s] =>
             let v := eval vm_compute in (lit s) in change (lit s) with v
         end.

Ltac not_a_word :=
  apply bool_decide_eq_false_2; intros Hin;
  repeat (apply elem_of_cons in Hin as [Hin|Hin]; [discriminate|]);
  first [by apply elem_of_nil in Hin | discriminate].

Section Turn.
Context {S : Type} (session : ClientSession S).

Lemma interactive_turn_run (line : pystr) (w : world S) :
  interactive_turn session (Returned line) w
  = turn_except (dispatch_command session (strip line) (prompted w)).
Proof. reflexivity. Qed.

(** A branch that calls one tool and prints what came back: the turn
    leaves that one request, whatever the session answers. *)
Lemma call_then_print tool_name arguments (f : pystr → pystr) (w : world S) :
  ∃ events,
    trace (turn_except ((do result <- call_tool session tool_name arguments;
                         print (f result) ;; ret Continue) w)).2
    = trace w ++ CallToolRequest tool_name arguments :: events
    ∧ calls_in events = [].
Proof.
  unfold bind at 1. rewrite call_tool_run.
  destruct (session_call_tool session tool_name arguments (sess w)) as [[result|e] s'].
  - eexists. unfold bind, print, emit, ret. simpl. rewrite <- app_assoc. simpl. done.
  - destruct (is_Exception (exn_cls e)) eqn:E.
    + eexists. unfold bind, print, emit, ret. simpl. rewrite <- !app_assoc. simpl. done.
    + unfold turn_except.
      destruct (exn_cls e); try discriminate; simpl;
        eexists; unfold bind, print, emit, ret; simpl; rewrite <- ?app_assoc; simpl; done.
Qed.

Lemma dispatch_write (rest : pystr) :
  dispatch_command session (lit "write " ++ rest)
  = write_command session (lit "write " ++ rest).
Proof.
  unfold dispatch_command.
  assert (bool_decide (lower (lit "write " ++ rest) ∈ [lit "quit"; lit "exit"; lit "q"]) = false) as ->
    by (eval_lits; not_a_word).
  assert (bool_decide (lower (lit "write " ++ rest) = lit "help") = false) as ->
    by (eval_lits; not_a_word).
  assert (bool_decide (lower (lit "write " ++ rest) = lit "tools") = false) as ->
    by (eval_lits; not_a_word).
  eval_lits. reflexivity.
Qed.

(** C6. A line whose stripped text starts with ["write "] has the text
    after it parsed by [parse_command_args]; with two arguments or more
    the turn issues exactly one tool call, of [write_file], with
    [filepath] the first argument and [content] the other arguments
    joined by single spaces; with fewer it prints the two usage lines and
    issues no call. *)
Theorem write_command_calls_write_file (w : world S) (line rest : pystr) :
  strip line = lit "write " ++ rest →
  let args := parse_command_args (strip rest) in
  let w' := (interactive_turn session (Returned line) w).2 in
  ∃ events, trace w' = trace w ++ events ∧
    if decide (2 ≤ length args)%nat then
      calls_in events =
        [(lit "write_file",
          <[lit "filepath" := default [] (args !! 0%nat)]>
            {[ lit "content" := join (lit " ") (drop 1 args) ]})]
    else
      events = [Prompted (nl ++ lit "mcp> ");
                Printed (lit "Usage: write <filepath> <content>");
                Printed (lit "       write <filepath> " ++ [ch_dquote]
                         ++ lit "<content with spaces>" ++ [ch_dquote])].
Proof.
  intros H. cbv zeta. rewrite interactive_turn_run, H, dispatch_write.
  unfold write_command.
  replace (drop 6 (lit "write " ++ rest)) with rest by (by eval_lits).
  destruct (decide (2 ≤ length (parse_command_args (strip rest)))%nat).
  - destruct (call_then_print (lit "write_file")
                (<[lit "filepath" := default [] (parse_command_args (strip rest) !! 0%nat)]>
                   {[ lit "content" := join (lit " ") (drop 1 (parse_command_args (strip rest))) ]})
                (λ r, r) (prompted w)) as (events & -> & Hcalls).
    eexists. split.
    + unfold prompted. simpl. rewrite <- app_assoc. reflexivity.
    + simpl. by rewrite Hcalls.
  - eexists. split; [|reflexivity].
    unfold bind, print, emit, ret, prompted. simpl. rewrite <- !app_assoc. reflexivity.
Qed.

(** *** What [strip] and [startswith] leave *)

Lemma startswith_true p : ∀ s, startswith p s = true → s = p ++ drop (length p) s.
Proof.
  induction p as [|a p IH]; intros [|b s] H; simpl in *; try done.
  apply andb_true_iff in H as [->%N.eqb_eq H]. f_equal. by apply IH.
Qed.

Lemma lstrip_head s c : head (lstrip s) = Some c → isspace c = false.
Proof.
  induction s as [|x s IH]; simpl; [done|].
  destruct (isspace x) eqn:E; [done|]. simpl. congruence.
Qed.

Lemma lstrip_keeps s c : c ∈ s → isspace c = false → c ∈ lstrip s.
Proof.
  induction s as [|x s IH]; simpl; [done|]. intros Hin Hc.
  destruct (isspace x) eqn:E; [|done].
  apply elem_of_cons in Hin as [->|Hin]; [congruence|by apply IH].
Qed.

Lemma strip_last s c : last (strip s) = Some c → isspace c = false.
Proof.
  unfold strip, rstrip. rewrite last_reverse. apply lstrip_head.
Qed.

Lemma strip_keeps s c : c ∈ s → isspace c = false → c ∈ strip s.
Proof.
  intros Hin Hc. unfold strip, rstrip.
  apply elem_of_reverse, lstrip_keeps; [|done].
  by apply elem_of_reverse, lstrip_keeps.
Qed.

(** After a stripped line's first word and blank there is always
    something that is not blank. *)
Lemma stripped_rest_nonempty (line word rest : pystr) :
  strip line = word ++ [ch_space] ++ rest → nonempty (strip rest) = true.
Proof.
  intros H.
  destruct (last rest) as [c|] eqn:El.
  - assert (isspace c = false) as Hc.
    { apply (strip_last line). rewrite H, !last_app, El. done. }
    assert (c ∈ strip rest) as Hin.
    { apply strip_keeps; [|done]. apply last_Some in El as [l' ->].
      apply elem_of_app. right. apply list_elem_of_singleton. done. }
    by destruct (strip rest); [apply elem_of_nil in Hin|].
  - apply last_None in El as ->.
    assert (isspace ch_space = false) as Hsp; [|done].
    apply (strip_last line). rewrite H, app_nil_r, last_app. done.
Qed.

Lemma dispatch_calc (rest : pystr) :
  dispatch_command session (lit "calc " ++ rest)
  = calc_command session (lit "calc " ++ rest).
Proof.
  unfold dispatch_command.
  assert (bool_decide (lower (lit "calc " ++ rest) ∈ [lit "quit"; lit "exit"; lit "q"]) = false) as ->
    by (eval_lits; not_a_word).
  assert (bool_decide (lower (lit "calc " ++ rest) = lit "help") = false) as ->
    by (eval_lits; not_a_word).
  assert (bool_decide (lower (lit "calc " ++ rest) = lit "tools") = false) as ->
    by (eval_lits; not_a_word).
  eval_lits. reflexivity.
Qed.

(** The first half of C5: a line whose stripped text is ["calc "]
    followed by [rest] issues exactly one call, of [calculate], on the
    stripped [rest]. *)
Lemma calc_command_calls_calculate (w : world S) (line rest : pystr) :
  strip line = lit "calc " ++ rest →
  ∃ events,
    trace (interactive_turn session (Returned line) w).2 = trace w ++ events
    ∧ calls_in events = [(lit "calculate", {[ lit "expression" := strip rest ]})].
Proof.
  intros H. rewrite interactive_turn_run, H, dispatch_calc.
  unfold calc_command.
  replace (drop 5 (lit "calc " ++ rest)) with rest by (by eval_lits).
  rewrite (stripped_rest_nonempty line (lit "calc") rest) by (by rewrite H).
  destruct (call_then_print (lit "calculate") {[ lit "expression" := strip rest ]}
              (λ r, lit "Result: " ++ r) (prompted w)) as (events & -> & Hcalls).
  eexists. split.
  - unfold prompted. simpl. rewrite <- app_assoc. reflexivity.
  - simpl. by rewrite Hcalls.
Qed.

(** C5, where the code leaves it. The line ["calc "] is stripped to
    ["calc"] before the test for the prefix ["calc "], so the turn prints
    the unknown-command lines, not the usage line; and whenever the
    branch of ["calc "] is taken the expression is not empty, so its
    usage line is never printed. *)
Theorem calc_usage_is_unreachable (w : world S) :
  interactive_turn session (Returned (lit "calc ")) w
  = (Returned Continue,
     {| tools := tools w; sess := sess w;
        trace := trace w ++ [Prompted (nl ++ lit "mcp> ");
                             Printed (lit "Unknown command: calc");
                             Printed (lit "Type 'help' for available commands")] |})
  ∧ ∀ line, startswith (lit "calc ") (strip line) = true →
            nonempty (strip (drop 5 (strip line))) = true.
Proof.
  split.
  - rewrite interactive_turn_run.
    replace (strip (lit "calc ")) with (lit "calc") by reflexivity.
    replace (dispatch_command session (lit "calc")) with (unknown_command (S:=S) (lit "calc"))
      by reflexivity.
    unfold unknown_command, bind, print, emit, ret, prompted. simpl.
    rewrite <- !app_assoc. reflexivity.
  - intros line H.
    apply (stripped_rest_nonempty line (lit "calc")).
    apply startswith_true in H. exact H.
Qed.

Lemma dispatch_ls (rest : pystr) :
  dispatch_command session (lit "ls" ++ rest) = ls_command session (lit "ls" ++ rest).
Proof.
  unfold dispatch_command.
  assert (bool_decide (lower (lit "ls" ++ rest) ∈ [lit "quit"; lit "exit"; lit "q"]) = false) as ->
    by (eval_lits; not_a_word).
  assert (bool_decide (lower (lit "ls" ++ rest) = lit "help") = false) as ->
    by (eval_lits; not_a_word).
  assert (bool_decide (lower (lit "ls" ++ rest) = lit "tools") = false) as ->
    by (eval_lits; not_a_word).
  eval_lits. reflexivity.
Qed.

(** The first half of C7, and more: every line whose stripped text
    starts with ["ls"] issues exactly one call, of [list_files], on the
    second blank-separated token, or on ["."] when there is none. *)
Lemma ls_command_calls_list_files (w : world S) (line rest : pystr) :
  strip line = lit "ls" ++ rest →
  ∃ events,
    trace (interactive_turn session (Returned line) w).2 = trace w ++ events
    ∧ calls_in events =
        [(lit "list_files",
          {[ lit "directory" := match split_ws (strip line) with
                                | _ :: directory :: _ => directory
                                | _ => lit "."
                                end ]})].
Proof.
  intros H. rewrite interactive_turn_run, H, dispatch_ls.
  unfold ls_command. generalize (split_ws (lit "ls" ++ rest)). intros parts.
  destruct (call_then_print (lit "list_files")
              {[ lit "directory" :=
                   if decide (1 < length parts)%nat
                   then default [] (parts !! 1%nat) else lit "." ]}
              (λ r, r) (prompted w)) as (events & -> & Hcalls).
  eexists. split.
  - unfold prompted. cbn [trace]. rewrite <- app_assoc. reflexivity.
  - simpl. rewrite Hcalls.
    destruct parts as [|a [|b l]];
      destruct (decide _) as [Hd|Hd]; simpl in Hd; try done; lia.
Qed.

(** C7, where the code leaves it. The test is for the prefix ["ls"]
    alone, so a command that is not [ls] or [ls dir], here ["lsx"], calls
    [list_files] too, on ["."]. *)
Theorem ls_prefix_calls_list_files (w : world S) :
  ∃ events,
    trace (interactive_turn session (Returned (lit "lsx")) w).2
    = trace w ++ Prompted (nl ++ lit "mcp> ")
              :: CallToolRequest (lit "list_files") {[ lit "directory" := lit "." ]}
              :: events
    ∧ calls_in events = [].
Proof.
  rewrite interactive_turn_run.
  replace (strip (lit "lsx")) with (lit "ls" ++ lit "x") by reflexivity.
  rewrite dispatch_ls. unfold ls_command.
  replace (split_ws (lit "ls" ++ lit "x")) with [lit "lsx"] by reflexivity.
  destruct (call_then_print (lit "list_files") {[ lit "directory" := lit "." ]}
              (λ r, r) (prompted w)) as (events & Htr & Hcalls).
  exists events. split; [|done].
  simpl. rewrite Htr. unfold prompted. simpl. by rewrite <- app_assoc.
Qed.

End Turn.

(** A line of [calc] with blanks around its expression. *)
Lemma calc_command_calls_calculate_witness :
  ∃ events,
    trace (interactive_turn (fixed_session [] {| content := [TextContent (lit "ok")];
                                                 isError := false |})
             (Returned (lit " calc  2 + 3 * 4 ")) (fresh [])).2
    = [] ++ events
    ∧ calls_in events = [(lit "calculate", {[ lit "expression" := lit "2 + 3 * 4" ]})].
Proof.
  exact (calc_command_calls_calculate
           (fixed_session [] {| content := [TextContent (lit "ok")]; isError := false |})
           (fresh []) (lit " calc  2 + 3 * 4 ") (lit " 2 + 3 * 4") eq_refl).
Defined.

(** A line of [ls] with a directory. *)
Lemma ls_command_calls_list_files_witness :
  ∃ events,
    trace (interactive_turn (fixed_session [] {| content := [TextContent (lit "ok")];
                                                 isError := false |})
             (Returned (lit "ls  src ")) (fresh [])).2
    = [] ++ events
    ∧ calls_in events = [(lit "list_files", {[ lit "directory" := lit "src" ]})].
Proof.
  exact (ls_command_calls_list_files
           (fixed_session [] {| content := [TextContent (lit "ok")]; isError := false |})
           (fresh []) (lit "ls  src ") (lit "  src") eq_refl).
Defined.

(** C6 on a line with a quoted argument. *)
Lemma write_command_calls_write_file_witness :
  ∃ events,
    trace (interactive_turn (fixed_session [] {| content := [TextContent (lit "ok")];
                                                 isError := false |})
             (Returned (lit "  write a.txt 'hello  world' again ")) (fresh [])).2
    = [] ++ events
    ∧ calls_in events =
        [(lit "write_file",
          <[lit "filepath" := lit "a.txt"]> {[ lit "content" := lit "hello  world again" ]})].
Proof.
  destruct (write_command_calls_write_file
              (fixed_session [] {| content := [TextContent (lit "ok")]; isError := false |})
              (fresh []) (lit "  write a.txt 'hello  world' again ")
              (lit "a.txt 'hello  world' again") eq_refl) as (events & Htr & Hcalls).
  exists events. split; [exact Htr|].
  destruct (decide _) as [_|Hn] in Hcalls; [exact Hcalls|].
  exfalso. apply Hn. vm_compute. lia.
Defined.

(** * More of the client *)

Section MoreTurn.
Context {S : Type} (session : ClientSession S).

Lemma calls_in_app (a b : list event) : calls_in (a ++ b) = calls_in a ++ calls_in b.
Proof. unfold calls_in. apply omap_app. Qed.

Lemma calls_in_printed (lines : list pystr) : calls_in (map Printed lines) = [].
Proof. induction lines as [|l lines IH]; [done|]. simpl. apply IH. Qed.

Lemma calls_in_map_printed {A} (f : A → pystr) (xs : list A) :
  calls_in (map (λ x, Printed (f x)) xs) = [].
Proof. induction xs as [|x xs IH]; [done|]. simpl. apply IH. Qed.

(** The [except] clauses only print. *)
Lemma turn_except_prints (r : outcome loop_ctl * world S) :
  ∃ lines, trace (turn_except r).2 = trace r.2 ++ map Printed lines.
Proof.
  destruct r as [[ctl|e] w]; simpl.
  - exists []. by rewrite app_nil_r.
  - destruct (exn_cls e) eqn:Ec; simpl;
      first [ by exists []; rewrite app_nil_r
            | eexists [_]; unfold bind, print, emit, ret; simpl; done ].
Qed.

(** A turn whose branch leaves the events [events] leaves them and
    lines printed by the [except] clauses. *)
Lemma turn_except_calls (r : outcome loop_ctl * world S) (w : world S) events0 :
  trace r.2 = trace w ++ events0 →
  ∃ events, trace (turn_except r).2 = trace w ++ events
            ∧ calls_in events = calls_in events0.
Proof.
  intros H. destruct (turn_except_prints r) as (lines & Htr).
  exists (events0 ++ map Printed lines). split.
  - by rewrite Htr, H, app_assoc.
  - by rewrite calls_in_app, calls_in_printed, app_nil_r.
Qed.

Lemma show_help_run (w : world S) :
  ∃ lines, show_help w = (Returned tt, {| tools := tools w; sess := sess w;
                                          trace := trace w ++ map Printed lines |}).
Proof.
  eexists [_; _; _; _; _; _; _; _; _; _].
  unfold show_help, bind, print, emit, ret. cbn [fst snd tools sess trace map].
  by rewrite <- !app_assoc.
Qed.

(** [list_tools] asks the session once and calls no tool. *)
Lemma list_tools_events (w : world S) :
  ∃ events, trace (list_tools session w).2 = trace w ++ events ∧ calls_in events = [].
Proof.
  unfold list_tools, try_except_Exception, bind, await_list_tools.
  destruct (session_list_tools session (sess w)) as [[result|e] s'].
  - unfold set_tools, get_tools, print, emit. cbn beta iota.
    erewrite for_each_emits; [|intros; reflexivity].
    cbn [fst snd tools sess trace]. rewrite <- !app_assoc.
    eexists. split; [reflexivity|].
    by rewrite !calls_in_app, calls_in_map_printed.
  - destruct (is_Exception (exn_cls e)).
    + unfold logger_error, emit. cbn [fst snd tools sess trace]. rewrite <- app_assoc.
      by eexists.
    + by eexists [_].
Qed.

(** A branch that calls one tool and prints what came back, before the
    [except] clauses. *)
Lemma call_print_events tool_name arguments (f : pystr → pystr) (w : world S) :
  ∃ events,
    trace ((do result <- call_tool session tool_name arguments;
            print (f result) ;; ret Continue) w).2
    = trace w ++ events
    ∧ calls_in events = [(tool_name, arguments)].
Proof.
  unfold bind at 1. rewrite call_tool_run.
  destruct (session_call_tool session tool_name arguments (sess w)) as [[result|e] s'].
  - eexists. unfold bind, print, emit, ret. simpl. rewrite <- app_assoc. done.
  - destruct (is_Exception (exn_cls e)) eqn:E.
    + eexists. unfold bind, print, emit, ret. simpl. rewrite <- !app_assoc. done.
    + eexists. simpl. done.
Qed.

Lemma split_ws_from_no_empty s : ∀ cur, [] ∉ split_ws_from cur s.
Proof.
  induction s as [|c s IH]; intros cur; simpl.
  - destruct cur; [apply not_elem_of_nil|]. by intros ?%list_elem_of_singleton.
  - destruct (isspace c); [|apply IH].
    destruct cur; [apply IH|]. apply not_elem_of_cons. split; [done|apply IH].
Qed.

Lemma join_no_empty (s : pystr) (l : list pystr) : l ≠ [] → [] ∉ l → join s l ≠ [].
Proof.
  destruct l as [|p [|q l]]; [done| |]; intros _ H; simpl.
  - intros ->. apply H. by left.
  - destruct p; [|done]. exfalso. apply H. by left.
Qed.

(** The calls of the chain of [if]/[elif]. *)
Lemma dispatch_calls (command : pystr) (w : world S) :
  ∃ events,
    trace (dispatch_command session command w).2 = trace w ++ events
    ∧ (calls_in events = [] ∨ ∃ call, calls_in events = [call] ∧ loop_call call).
Proof.
  unfold dispatch_command.
  repeat case_match.
  - exists []. split; [by rewrite app_nil_r|by left].
  - destruct (show_help_run w) as (lines & Hh). unfold bind. rewrite Hh.
    exists (map Printed lines). split; [done|]. left. apply calls_in_printed.
  - destruct (list_tools_events w) as (events & Htr & Hc).
    exists events. split; [|by left].
    unfold bind. by destruct (list_tools session w) as [[[]|e] w'].
  - unfold calc_command. destruct (nonempty (strip (drop 5 command))) eqn:E.
    + destruct (call_print_events (lit "calculate")
                  {[ lit "expression" := strip (drop 5 command) ]}
                  (λ r, lit "Result: " ++ r) w) as (events & Htr & Hc).
      exists events. split; [done|]. right. eexists. split; [done|].
      left. eexists. split; [|done]. by destruct (strip (drop 5 command)).
    + eexists [_]. split; [done|by left].
  - unfold ls_command.
    set (directory := if decide (1 < length (split_ws command))%nat
                      then default [] (split_ws command !! 1%nat) else lit ".").
    destruct (call_print_events (lit "list_files") {[ lit "directory" := directory ]}
                (λ r, r) w) as (events & Htr & Hc).
    exists events. split; [done|]. right. eexists. split; [done|].
    right. left. eexists. split; [|done].
    unfold directory. destruct (decide _) as [Hlen|_]; [|done].
    destruct (split_ws command !! 1%nat) as [d|] eqn:El.
    + simpl. intros ->. apply list_elem_of_lookup_2 in El.
      by apply split_ws_from_no_empty in El.
    + apply lookup_ge_None in El. lia.
  - unfold read_command. destruct (nonempty (strip (drop 5 command))) eqn:E.
    + destruct (call_print_events (lit "read_file")
                  {[ lit "filepath" := strip (drop 5 command) ]}
                  (λ r, r) w) as (events & Htr & Hc).
      exists events. split; [done|]. right. eexists. split; [done|].
      right. right. left. eexists. split; [|done]. by destruct (strip (drop 5 command)).
    + eexists [_]. split; [done|by left].
  - unfold write_command.
    set (args := parse_command_args (strip (drop 6 command))).
    assert ([] ∉ args) as Hne by (apply scan_no_empty, not_elem_of_nil).
    destruct (decide (2 ≤ length args)%nat) as [Hlen|Hlen].
    + destruct (call_print_events (lit "write_file")
                  (<[ lit "filepath" := default [] (args !! 0%nat) ]>
                     {[ lit "content" := join (lit " ") (drop 1 args) ]})
                  (λ r, r) w) as (events & Htr & Hc).
      exists events. split; [done|]. right. eexists. split; [done|].
      right. right. right. eexists _, _. split; [|split; [|done]].
      * destruct args as [|a args']; [simpl in Hlen; lia|]. simpl.
        intros ->. apply Hne. by left.
      * destruct args as [|a [|b args']]; [simpl in Hlen; lia..|].
        apply join_no_empty; [done|]. simpl. intros Hin. apply Hne. by right.
    + eexists [_; _].
      split; [unfold bind, print, emit, ret; simpl; by rewrite <- app_assoc|by left].
  - exists []. split; [by rewrite app_nil_r|by left].
  - eexists [_; _].
    split; [unfold unknown_command, bind, print, emit, ret; simpl; by rewrite <- app_assoc
           |by left].
Qed.

(** The calls of one turn, whatever [input] gives. *)
Lemma turn_calls (typed : outcome pystr) (w : world S) :
  ∃ events,
    trace (interactive_turn session typed w).2 = trace w ++ events
    ∧ (calls_in events = [] ∨ ∃ call, calls_in events = [call] ∧ loop_call call).
Proof.
  unfold interactive_turn.
  assert (∃ events0, trace (interactive_command session typed w).2 = trace w ++ events0
            ∧ (calls_in events0 = [] ∨ ∃ call, calls_in events0 = [call] ∧ loop_call call))
    as (events0 & Htr & Hc).
  { destruct typed as [line|e].
    - destruct (dispatch_calls (strip line) (prompted w)) as (events & Htr & Hc).
      exists (Prompted (nl ++ lit "mcp> ") :: events). split; [|done].
      change (interactive_command session (Returned line) w)
        with (dispatch_command session (strip line) (prompted w)).
      rewrite Htr. unfold prompted. simpl. by rewrite <- app_assoc.
    - eexists [_]. split; [done|by left]. }
  destruct (turn_except_calls _ w events0 Htr) as (events & Htr' & Hc').
  exists events. split; [done|]. by rewrite Hc'.
Qed.

End MoreTurn.

(** ** The command loop as a whole *)

Section Loop.
Context {S : Type} (session : ClientSession S).

Lemma dispatch_read (rest : pystr) :
  dispatch_command session (lit "read " ++ rest)
  = read_command session (lit "read " ++ rest).
Proof.
  unfold dispatch_command.
  assert (bool_decide (lower (lit "read " ++ rest) ∈ [lit "quit"; lit "exit"; lit "q"]) = false) as ->
    by (eval_lits; not_a_word).
  assert (bool_decide (lower (lit "read " ++ rest) = lit "help") = false) as ->
    by (eval_lits; not_a_word).
  assert (bool_decide (lower (lit "read " ++ rest) = lit "tools") = false) as ->
    by (eval_lits; not_a_word).
  eval_lits. reflexivity.
Qed.

(** X4. A line whose stripped text is ["read "] followed by [rest]
    issues exactly one call, of [read_file], on the stripped [rest]; the
    file path is taken whole, blanks and quotes inside it included. *)
Theorem read_command_calls_read_file (w : world S) (line rest : pystr) :
  strip line = lit "read " ++ rest →
  ∃ events,
    trace (interactive_turn session (Returned line) w).2 = trace w ++ events
    ∧ calls_in events = [(lit "read_file", {[ lit "filepath" := strip rest ]})].
Proof.
  intros H. rewrite interactive_turn_run, H, dispatch_read.
  unfold read_command.
  replace (drop 5 (lit "read " ++ rest)) with rest by (by eval_lits).
  rewrite (stripped_rest_nonempty line (lit "read") rest) by (by rewrite H).
  destruct (call_then_print session (lit "read_file") {[ lit "filepath" := strip rest ]}
              (λ r, r) (prompted w)) as (events & -> & Hcalls).
  eexists. split.
  - unfold prompted. simpl. rewrite <- app_assoc. reflexivity.
  - simpl. by rewrite Hcalls.
Qed.

(** X5. A line that is [quit], [exit] or [q] in any case, with blanks
    around it or not, ends the session at once: nothing is asked of the
    server, nothing more is printed, and what is typed after it is not
    read. *)
Theorem quit_ends_session (w : world S) (line : pystr) (rest : list (outcome pystr)) :
  lower (strip line) ∈ [lit "quit"; lit "exit"; lit "q"] →
  interactive_session session (Returned line :: rest) w
  = (Returned tt,
     {| tools := tools w; sess := sess w;
        trace := trace w ++ session_banner ++ [Prompted (nl ++ lit "mcp> ")] |}).
Proof.
  intros H. unfold interactive_session, bind at 1 2, print, emit.
  cbn [interactive_loop]. unfold bind at 1. rewrite interactive_turn_run.
  unfold dispatch_command. rewrite (bool_decide_eq_true_2 _ H).
  unfold ret, prompted. cbn. by rewrite <- !app_assoc.
Qed.

Lemma loop_calls (inputs : list (outcome pystr)) : ∀ w : world S,
  ∃ events,
    trace (interactive_loop session inputs w).2 = trace w ++ events
    ∧ Forall loop_call (calls_in events)
    ∧ (length (calls_in events) ≤ length inputs)%nat.
Proof.
  induction inputs as [|typed rest IH]; intros w.
  - exists []. simpl. by rewrite app_nil_r.
  - destruct (turn_calls session typed w) as (events1 & Htr1 & Hc1).
    assert (Forall loop_call (calls_in events1) ∧ (length (calls_in events1) ≤ 1)%nat)
      as [Hf1 Hl1].
    { destruct Hc1 as [->|(call & -> & Hcall)]; simpl; split; auto with lia. }
    cbn [interactive_loop]. unfold bind.
    destruct (interactive_turn session typed w) as [[[|]|e] w1]; simpl in Htr1.
    + destruct (IH w1) as (events2 & Htr2 & Hf2 & Hl2).
      exists (events1 ++ events2). rewrite Htr2, Htr1, calls_in_app, length_app.
      split; [by rewrite app_assoc|]. split; [by apply Forall_app|simpl; lia].
    + exists events1. simpl. split; [done|]. split; [done|lia].
    + exists events1. simpl. split; [done|]. split; [done|lia].
Qed.

(** X6. Whatever is typed and whatever the server answers, a session
    calls a tool at most once per line read, and only [calculate],
    [list_files], [read_file] and [write_file], each with its own keys
    and never with an empty expression, directory, file path or
    content. *)
Theorem interactive_session_calls (inputs : list (outcome pystr)) (w : world S) :
  ∃ events,
    trace (interactive_session session inputs w).2 = trace w ++ events
    ∧ Forall loop_call (calls_in events)
    ∧ (length (calls_in events) ≤ length inputs)%nat.
Proof.
  unfold interactive_session, bind, print, emit.
  match goal with |- context [interactive_loop session inputs ?w0] =>
    destruct (loop_calls inputs w0) as (events & Htr & Hf & Hl) end.
  exists (session_banner ++ events). split.
  - rewrite Htr. cbn [trace]. by rewrite <- !app_assoc.
  - by rewrite calls_in_app.
Qed.

(** X7. An exception raised in the [try] block of a turn, by [input],
    by the session or by a command: for an instance of [Exception] the
    turn prints [Error: ] and its message, for a [KeyboardInterrupt] it
    prints the hint at [quit], and in both cases the loop goes on with
    the next line; any other exception ([SystemExit], a cancellation of
    the task) leaves the loop. *)
Theorem turn_catches (typed : outcome pystr) (rest : list (outcome pystr))
    (w w' : world S) (e : exn) :
  interactive_command session typed w = (Raised e, w') →
  interactive_loop session (typed :: rest) w
  = match exn_cls e with
    | CKeyboardInterrupt =>
        interactive_loop session rest
          {| tools := tools w'; sess := sess w';
             trace := trace w' ++ [Printed (nl ++ lit "Use 'quit' to exit")] |}
    | c =>
        if is_Exception c
        then interactive_loop session rest
               {| tools := tools w'; sess := sess w';
                  trace := trace w' ++ [Printed (lit "Error: " ++ exn_str e)] |}
        else (Raised e, w')
    end.
Proof.
  intros H. cbn [interactive_loop]. unfold bind at 1, interactive_turn. rewrite H.
  unfold turn_except. by destruct (exn_cls e).
Qed.

(** X8. When [input] raises an instance of [Exception], as it does at
    the end of the input, the turn prints the error and the loop goes on
    to the next turn: [n] such failures in a row leave [n] prompts and
    [n] error lines, and the loop is still running. *)
Theorem failed_input_goes_on (e : exn) (n : nat) (rest : list (outcome pystr)) (w : world S) :
  is_Exception (exn_cls e) = true →
  interactive_loop session (replicate n (Raised e) ++ rest) w
  = interactive_loop session rest
      {| tools := tools w; sess := sess w;
         trace := trace w ++ concat (replicate n (failed_input_events e)) |}.
Proof.
  intros He. revert w. induction n as [|n IH]; intros w.
  - simpl. rewrite app_nil_r. by destruct w.
  - cbn [replicate app interactive_loop]. unfold bind at 1.
    assert (interactive_turn session (Raised e) w
            = (Returned Continue,
               {| tools := tools w; sess := sess w;
                  trace := trace w ++ failed_input_events e |})) as ->.
    { unfold interactive_turn, interactive_command, input, bind, emit, raise, turn_except.
      cbn [fst snd]. destruct (exn_cls e); try discriminate;
        unfold print, emit, ret, failed_input_events; cbn; by rewrite <- app_assoc. }
    rewrite IH. cbn. by rewrite <- app_assoc.
Qed.

(** X9. When the server fails to list its tools, [list_tools] leaves
    the cached list as it was and prints nothing; an instance of
    [Exception] is logged and [list_tools] returns, anything else is
    raised on. *)
Theorem list_tools_failure (w : world S) (e : exn) (s' : S) :
  session_list_tools session (sess w) = (Raised e, s') →
  list_tools session w
  = (if is_Exception (exn_cls e) then Returned tt else Raised e,
     {| tools := tools w; sess := s';
        trace := trace w ++ ListToolsRequest ::
                   (if is_Exception (exn_cls e)
                    then [LoggedError (lit "Failed to list tools: " ++ exn_str e)]
                    else []) |}).
Proof.
  intros H. unfold list_tools, try_except_Exception, bind, await_list_tools.
  rewrite H. destruct (is_Exception (exn_cls e)); [|done].
  unfold logger_error, emit. cbn. by rewrite <- app_assoc.
Qed.

(** X10. When the server lists its tools, [list_tools] prints the
    heading, then one line for each tool of the answer, in the order of
    the answer and whatever was cached before, with [None] for a missing
    description, then an empty line; it sends that one request and
    nothing else. *)
Theorem list_tools_prints (w : world S) (result : ListToolsResult) (s' : S) :
  session_list_tools session (sess w) = (Returned result, s') →
  trace (list_tools session w).2
  = trace w ++ [ListToolsRequest; Printed (nl ++ lit "=== Available Tools ===")]
    ++ map (λ tool, Printed (bullet ++ lit " " ++ name tool ++ lit ": "
                             ++ str_of_optional (description tool)))
         (result_tools result)
    ++ [Printed []].
Proof.
  intros H. unfold list_tools, try_except_Exception, bind, await_list_tools.
  rewrite H. unfold set_tools, get_tools, print, emit. cbn beta iota.
  erewrite for_each_emits; [|intros; reflexivity].
  cbn [fst snd tools sess trace]. by rewrite <- !app_assoc.
Qed.

(** *** [run_demo] *)

Lemma returns_print (line : pystr) (w : world S) : returns_with_calls (print line) w [].
Proof. by eexists _, [_]. Qed.

Lemma returns_seq (m k : M (world S) unit) (w : world S) calls1 calls2 :
  returns_with_calls m w calls1 →
  (∀ w', returns_with_calls k w' calls2) →
  returns_with_calls (m ;; k) w (calls1 ++ calls2).
Proof.
  intros (w1 & events1 & Hm & Htr1 & Hc1) Hk.
  destruct (Hk w1) as (w2 & events2 & Hk2 & Htr2 & Hc2).
  exists w2, (events1 ++ events2). unfold bind. rewrite Hm.
  split; [done|]. split; [by rewrite Htr2, Htr1, app_assoc|].
  by rewrite calls_in_app, Hc1, Hc2.
Qed.

Lemma returns_call_print tool_name arguments (f : pystr → pystr) (w : world S) :
  raises_Exception_only session →
  returns_with_calls (do result <- call_tool session tool_name arguments; print (f result))
    w [(tool_name, arguments)].
Proof.
  intros Hs. unfold returns_with_calls, bind. rewrite call_tool_run.
  specialize (Hs tool_name arguments (sess w)).
  destruct (session_call_tool session tool_name arguments (sess w)) as [[result|e] s'].
  - eexists _, [_; _]. split; [done|].
    split; [unfold print, emit; cbn; by rewrite <- app_assoc|done].
  - rewrite (Hs e eq_refl). eexists _, [_; _; _]. split; [done|].
    split; [unfold print, emit; cbn; by rewrite <- app_assoc|done].
Qed.

(** X11. With a session that raises nothing but instances of
    [Exception], the demonstration runs to its end whatever the calls
    answer, and has made seven calls: the four calculations in order,
    then [list_files] on ["."], [write_file] of the test content to
    [test_file.txt], and [read_file] of [test_file.txt]. *)
Theorem run_demo_calls (w : world S) :
  raises_Exception_only session →
  returns_with_calls (run_demo session) w demo_calls.
Proof.
  intros Hs.
  assert (∃ calls, returns_with_calls (run_demo session) w calls ∧ calls = demo_calls)
    as (calls & H & <-); [|done].
  eexists. split.
  - unfold run_demo, demo_expressions. cbn [for_each].
    repeat first
      [ apply returns_print
      | by apply (returns_call_print _ _ (λ r, _))
      | by eexists _, []; rewrite app_nil_r
      | eapply returns_seq; [|intros ?] ].
  - reflexivity.
Qed.

End Loop.

(** *** [main] *)

(** X12. When [main] starts the client it is always on the default
    server command [python mcp_server.py], in the mode given as first
    argument, [demo] or [interactive], and [main] prints nothing itself;
    given [server] as the mode, the only one that would set another
    server command, with a command after it or not, [main] starts no
    client and prints [Unknown mode: server]. *)
Theorem main_runs_default_server (argv : list pystr) :
  (∀ (server_command : list pystr) (operation : pystr),
     (main argv).2 = Some (server_command, operation) →
     server_command = [lit "python"; lit "mcp_server.py"]
     ∧ argv !! 1%nat = Some operation
     ∧ operation ∈ [lit "demo"; lit "interactive"]
     ∧ (main argv).1 = [])
  ∧ (argv !! 1%nat = Some (lit "server") →
     main argv = ([lit "Unknown mode: server"], None)).
Proof.
  unfold main. destruct (decide (length argv < 2)%nat) as [Hlen|Hlen].
  - split; [done|]. intros H%lookup_lt_Some. lia.
  - destruct (argv !! 1%nat) as [mode|] eqn:Em; [|apply lookup_ge_None in Em; lia].
    cbn [default]. split.
    + intros server_command operation.
      destruct (bool_decide (mode = lit "server")) eqn:Es.
      * apply bool_decide_eq_true_1 in Es as ->.
        repeat case_bool_decide; try done;
          match goal with H : lit _ = lit _ |- _ => by vm_compute in H end.
      * cbn [andb]. repeat case_bool_decide; cbn [fst snd]; try done; intros [= <- <-];
          unfold id in *; subst mode; (split; [done|]); (split; [done|]); (split; [|done]);
          set_solver.
    + intros [= ->]. by destruct (bool_decide (2 < length argv)%nat).
Qed.

(** [read] with blanks around and inside the file path. *)
Lemma read_command_calls_read_file_witness :
  ∃ events,
    trace (interactive_turn (fixed_session [] {| content := [TextContent (lit "ok")];
                                                 isError := false |})
             (Returned (lit " read  my notes.txt ")) (fresh [])).2
    = [] ++ events
    ∧ calls_in events = [(lit "read_file", {[ lit "filepath" := lit "my notes.txt" ]})].
Proof.
  exact (read_command_calls_read_file
           (fixed_session [] {| content := [TextContent (lit "ok")]; isError := false |})
           (fresh []) (lit " read  my notes.txt ") (lit " my notes.txt") eq_refl).
Defined.

(** [QUIT] with blanks around it, and a command after it. *)
Lemma quit_ends_session_witness :
  interactive_session closed_session
    [Returned (lit " QUIT "); Returned (lit "calc 1 + 1")] (fresh [])
  = (Returned tt,
     {| tools := []; sess := tt;
        trace := [] ++ session_banner ++ [Prompted (nl ++ lit "mcp> ")] |}).
Proof.
  apply (quit_ends_session closed_session (fresh []) (lit " QUIT ")
           [Returned (lit "calc 1 + 1")]).
  apply (bool_decide_unpack _). vm_compute. exact I.
Defined.

(** Control-C at the prompt, then a cancellation of the task. *)
Lemma turn_catches_witness :
  interactive_loop closed_session
    [Raised {| exn_cls := CKeyboardInterrupt; exn_str := [] |};
     Raised {| exn_cls := CCancelledError; exn_str := [] |}] (fresh [])
  = interactive_loop closed_session
      [Raised {| exn_cls := CCancelledError; exn_str := [] |}]
      {| tools := []; sess := tt;
         trace := [Prompted (nl ++ lit "mcp> ")]
                  ++ [Printed (nl ++ lit "Use 'quit' to exit")] |}.
Proof.
  exact (turn_catches closed_session (Raised {| exn_cls := CKeyboardInterrupt; exn_str := [] |})
           [Raised {| exn_cls := CCancelledError; exn_str := [] |}]
           (fresh []) (prompted (fresh []))
           {| exn_cls := CKeyboardInterrupt; exn_str := [] |} eq_refl).
Defined.

(** Three turns at the end of the input, and [quit] never typed. *)
Lemma failed_input_goes_on_witness :
  interactive_loop closed_session (replicate 3 (Raised eof_error) ++ []) (fresh [])
  = interactive_loop closed_session []
      {| tools := []; sess := tt;
         trace := [] ++ concat (replicate 3 (failed_input_events eof_error)) |}.
Proof.
  exact (failed_input_goes_on closed_session eof_error 3 [] (fresh []) eq_refl).
Defined.

(** A client with one descriptor cached, and a server that is gone. *)
Lemma list_tools_failure_witness :
  list_tools closed_session (fresh [tool_calculate])
  = (Returned tt,
     {| tools := [tool_calculate]; sess := tt;
        trace := [] ++ [ListToolsRequest;
                        LoggedError (lit "Failed to list tools: " ++ lit "Connection closed")] |}).
Proof.
  exact (list_tools_failure closed_session (fresh [tool_calculate])
           {| exn_cls := CMcpError; exn_str := lit "Connection closed" |} tt eq_refl).
Defined.

(** The demonstration with a server that is gone. *)
Lemma run_demo_calls_witness :
  returns_with_calls (run_demo closed_session) (fresh []) demo_calls.
Proof.
  apply (run_demo_calls closed_session (fresh [])).
  intros tool_name arguments s e H. simpl in H. injection H as <-. reflexivity.
Defined.

(** [python mcp_client.py interactive], and
    [python mcp_client.py server python other_server.py]. *)
Lemma main_runs_default_server_witness :
  ([lit "python"; lit "mcp_server.py"] = [lit "python"; lit "mcp_server.py"]
   ∧ [lit "mcp_client.py"; lit "interactive"] !! 1%nat = Some (lit "interactive")
   ∧ lit "interactive" ∈ [lit "demo"; lit "interactive"]
   ∧ (main [lit "mcp_client.py"; lit "interactive"]).1 = [])
  ∧ main [lit "mcp_client.py"; lit "server"; lit "python"; lit "other_server.py"]
    = ([lit "Unknown mode: server"], None).
Proof.
  split.
  - exact (proj1 (main_runs_default_server [lit "mcp_client.py"; lit "interactive"])
             [lit "python"; lit "mcp_server.py"] (lit "interactive") eq_refl).
  - exact (proj2 (main_runs_default_server
                    [lit "mcp_client.py"; lit "server"; lit "python"; lit "other_server.py"])
             eq_refl).
Defined.

(** A server with two tools, one without description, and a client
    that had another list cached. *)
Lemma list_tools_prints_witness :
  trace (list_tools (fixed_session [tool_read_file; tool_calculate]
                       {| content := []; isError := false |})
           (fresh [tool_calculate])).2
  = [] ++ [ListToolsRequest; Printed (nl ++ lit "=== Available Tools ===")]
    ++ map (λ tool, Printed (bullet ++ lit " " ++ name tool ++ lit ": "
                             ++ str_of_optional (description tool)))
         [tool_read_file; tool_calculate]
    ++ [Printed []].
Proof.
  exact (list_tools_prints
           (fixed_session [tool_read_file; tool_calculate] {| content := []; isError := false |})
           (fresh [tool_calculate])
           {| result_tools := [tool_read_file; tool_calculate] |} tt eq_refl).
Defined.

(** ** More of [parse_command_args] *)

(** Outside quotes, the characters of a word go to the current
    argument. *)
Lemma scan_word (w : pystr) : ∀ st,
  in_quotes st = false → ch_space ∉ w → ch_dquote ∉ w → ch_squote ∉ w →
  foldl scan_char st w
  = {| args := args st; current_arg := current_arg st ++ w;
       in_quotes := false; quote_char := quote_char st |}.
Proof.
  induction w as [|c w IH]; intros st Hq Hsp Hd Hs.
  - simpl. rewrite app_nil_r. destruct st. simpl in Hq. by rewrite Hq.
  - apply not_elem_of_cons in Hsp as [Hc1 Hsp]. apply not_elem_of_cons in Hd as [Hc2 Hd].
    apply not_elem_of_cons in Hs as [Hc3 Hs].
    cbn [foldl]. unfold scan_char at 2. rewrite Hq. cbn [negb].
    assert ((c =? ch_dquote) || (c =? ch_squote) = false) as ->.
    { apply orb_false_iff. split; apply N.eqb_neq; congruence. }
    assert ((c =? ch_space) = false) as -> by (apply N.eqb_neq; congruence).
    rewrite IH by done. cbn [args current_arg in_quotes quote_char].
    by rewrite <- app_assoc.
Qed.

(** Inside the quotes [q], every character but [q] goes to the current
    argument, blanks and the other quote included. *)
Lemma scan_quoted (q : N) (s : pystr) : ∀ st,
  in_quotes st = true → quote_char st = Some q → q ∉ s →
  foldl scan_char st s
  = {| args := args st; current_arg := current_arg st ++ s;
       in_quotes := true; quote_char := Some q |}.
Proof.
  induction s as [|c s IH]; intros st Hq Hc Hs.
  - simpl. rewrite app_nil_r. destruct st. simpl in *. by rewrite Hq, Hc.
  - apply not_elem_of_cons in Hs as [Hc1 Hs].
    cbn [foldl]. unfold scan_char at 2. rewrite Hq, Hc. cbn [negb].
    rewrite bool_decide_eq_false_2 by congruence.
    rewrite IH by done. cbn [args current_arg in_quotes quote_char].
    by rewrite <- app_assoc.
Qed.

Lemma scan_words (ws : list pystr) : ∀ st,
  in_quotes st = false → current_arg st = [] → Forall word ws →
  scan_finish (foldl scan_char st (join [ch_space] ws)) = args st ++ ws.
Proof.
  induction ws as [|w ws IH]; intros st Hq Hcur Hws.
  - simpl. unfold scan_finish. by rewrite Hcur, app_nil_r.
  - apply Forall_cons in Hws as [(Hne & Hsp & Hd & Hs) Hws].
    destruct ws as [|w' ws].
    + simpl. rewrite scan_word by done. unfold scan_finish. simpl.
      rewrite Hcur. simpl. by destruct w.
    + rewrite join_cons, foldl_app, (scan_word w st) by done.
      cbn [app foldl]. unfold scan_char at 2. cbn [in_quotes negb].
      change ((ch_space =? ch_dquote) || (ch_space =? ch_squote)) with false.
      change (ch_space =? ch_space) with true. cbv iota.
      cbn [current_arg]. rewrite Hcur. cbn [app].
      assert (nonempty w = true) as -> by (by destruct w).
      rewrite IH by done. cbn [args]. by rewrite <- app_assoc.
Qed.

(** X13. Words, that is non-empty strings without blank or quote,
    joined by single blanks are parsed back into the same words: what
    [write] joins with [' '.join] parses to what was joined. *)
Theorem parse_command_args_join (ws : list pystr) :
  Forall word ws → parse_command_args (join (lit " ") ws) = ws.
Proof.
  intros H. unfold parse_command_args.
  change (lit " ") with [ch_space]. by rewrite scan_words.
Qed.

(** X14. After a word and a blank, a text between two quotes of the
    same kind, double or single, that has no such quote inside is one
    argument, taken as it is with its blanks and quotes of the other
    kind; the closing quote may be missing; and an empty quoted text is
    no argument at all. *)
Theorem parse_command_args_quoted (path content : pystr) (q : N) :
  word path → q = ch_dquote ∨ q = ch_squote → q ∉ content →
  let parsed := if nonempty content then [path; content] else [path] in
  parse_command_args (path ++ [ch_space] ++ [q] ++ content ++ [q]) = parsed
  ∧ parse_command_args (path ++ [ch_space] ++ [q] ++ content) = parsed.
Proof.
  intros (Hne & Hsp & Hd & Hs) Hq Hc. cbv zeta. unfold parse_command_args.
  assert (nonempty path = true) as Hp by (by destruct path).
  assert ((q =? ch_dquote) || (q =? ch_squote) = true) as Hqq.
  { destruct Hq as [->| ->]; reflexivity. }
  assert (foldl scan_char scan_start (path ++ [ch_space] ++ [q] ++ content)
          = {| args := [path]; current_arg := content;
               in_quotes := true; quote_char := Some q |}) as Hscan.
  { rewrite foldl_app, (scan_word path scan_start) by done.
    cbn [app foldl]. unfold scan_char at 3. cbn [in_quotes negb].
    change ((ch_space =? ch_dquote) || (ch_space =? ch_squote)) with false.
    change (ch_space =? ch_space) with true. cbv iota.
    cbn [current_arg scan_start app]. rewrite Hp.
    unfold scan_char at 2. cbn [in_quotes negb]. rewrite Hqq.
    by rewrite (scan_quoted q). }
  split.
  - rewrite !app_assoc, foldl_app, <- !app_assoc, Hscan.
    cbn [foldl]. unfold scan_char. cbn [in_quotes negb quote_char].
    rewrite bool_decide_eq_true_2 by done. unfold scan_finish. cbn.
    by destruct content.
  - rewrite Hscan. unfold scan_finish. cbn. by destruct content.
Qed.

(** [hello.txt "Hello, World!"], the example of the help text. *)
Lemma parse_command_args_quoted_witness :
  parse_command_args (lit "hello.txt" ++ [ch_space] ++ [ch_dquote]
                      ++ lit "Hello, World!" ++ [ch_dquote])
  = [lit "hello.txt"; lit "Hello, World!"]
  ∧ parse_command_args (lit "hello.txt" ++ [ch_space] ++ [ch_dquote] ++ lit "Hello, World!")
    = [lit "hello.txt"; lit "Hello, World!"].
Proof.
  apply (parse_command_args_quoted (lit "hello.txt") (lit "Hello, World!") ch_dquote).
  - apply (bool_decide_unpack _). vm_compute. exact I.
  - left. reflexivity.
  - apply (bool_decide_unpack _). vm_compute. exact I.
Defined.

(** Three words. *)
Lemma parse_command_args_join_witness :
  parse_command_args (join (lit " ") [lit "a.txt"; lit "hello"; lit "world"])
  = [lit "a.txt"; lit "hello"; lit "world"].
Proof.
  apply (parse_command_args_join [lit "a.txt"; lit "hello"; lit "world"]).
  apply (bool_decide_unpack _). vm_compute. exact I.
Defined.

(** ** The server's handlers *)

Example calculate_demo (beyond : pystr → outcome pyval) (t : tree) :
  calculate beyond (lit "2 + 3 * 4") t = (Returned (lit "Result: 2 + 3 * 4 = 14"), t).
Proof. reflexivity. Qed.

Example calculate_list_display (beyond : pystr → outcome pyval) (t : tree) :
  calculate beyond (lit "[1, 2]") t = (Returned (lit "Result: [1, 2] = [1, 2]"), t).
Proof. reflexivity. Qed.

(** C1, where the code leaves it. [calculate] hands its text to Python's
    [eval]: a comparison, which is no sentence of the grammar of numbers,
    [+ - * / ^], parentheses and named functions, is evaluated to a
    success result, whatever [eval] does on the texts the model leaves
    open. *)
Theorem calculate_evaluates_comparison (beyond : pystr → outcome pyval) (t : tree) :
  calculate beyond (lit "1<2") t = (Returned (lit "Result: 1<2 = True"), t)
  ∧ in_spec_grammar_alphabet (lit "1<2") = false.
Proof. split; reflexivity. Qed.

(** *** Exceptions of the handlers *)

Lemma os_error_is_Exception printable e filename :
  is_Exception (exn_cls (os_error printable e filename)) = true.
Proof. by destruct e. Qed.

Lemma is_io_Exception (c : exn_class) : is_io c = true → is_Exception c = true.
Proof. by destruct c. Qed.

Lemma io_exn_is_Exception (e : io_exn) : is_Exception (exn_cls (`e)) = true.
Proof. destruct e as [e He]. by apply is_io_Exception. Qed.

Lemma mkdir_raises (sys : system) (t : tree) (path : pystr) (e : exn) :
  mkdir sys t path = inl e → is_Exception (exn_cls e) = true.
Proof.
  unfold mkdir. destruct (refuses sys Mkdir path) as [e'|].
  - intros [= <-]. apply io_exn_is_Exception.
  - destruct (place_to_make t path); [|done]. intros [= <-]. apply os_error_is_Exception.
Qed.

Lemma mkdir_exist_ok_raises sys name t e t' :
  mkdir_exist_ok sys name t = (Raised e, t') → is_Exception (exn_cls e) = true.
Proof.
  unfold mkdir_exist_ok. destruct (mkdir sys t name) as [e'|] eqn:Em; [|done].
  destruct (is_OSError (exn_cls e') && isdir sys t name); [done|].
  intros [= <- _]. by apply mkdir_raises in Em.
Qed.

Lemma makedirs_depth_raises sys depth : ∀ name t e t',
  makedirs_depth sys depth name t = (Raised e, t') → is_Exception (exn_cls e) = true.
Proof.
  induction depth as [|depth IH]; intros name t e t'; simpl;
    destruct (head_tail name) as [head tail];
    destruct (nonempty head && nonempty tail && negb (exists_ sys t head));
    try apply mkdir_exist_ok_raises.
  - by inversion 1.
  - destruct (makedirs_depth sys depth head t) as [[[]|e1] t1] eqn:E.
    + destruct (bool_decide (tail = dot)); [by inversion 1|apply mkdir_exist_ok_raises].
    + apply IH in E. destruct (exn_cls e1) eqn:Ec;
        try (inversion 1; subst; by rewrite Ec).
      destruct (bool_decide (tail = dot)); [by inversion 1|apply mkdir_exist_ok_raises].
Qed.

Lemma read_text_raises (sys : system) (t : tree) (path : pystr) (e : exn) :
  read_text sys t path = inl e → is_Exception (exn_cls e) = true.
Proof.
  unfold read_text. destruct (refuses sys OpenRead path) as [e'|].
  - intros [= <-]. apply io_exn_is_Exception.
  - destruct (stat t path) as [e'|[p [content| |]]]; try done;
      try (intros [= <-]; apply os_error_is_Exception).
    destruct (read_special sys path) as [e'|]; [|done].
    intros [= <-]. apply io_exn_is_Exception.
Qed.

Lemma write_text_raises (sys : system) (t t' : tree) (path content : pystr) (e : exn) :
  write_text sys path content t = (Raised e, t') → is_Exception (exn_cls e) = true.
Proof.
  unfold write_text. destruct (refuses sys OpenWrite path) as [e'|].
  - intros [= <- _]. apply io_exn_is_Exception.
  - destruct (place_to_write t path) as [e'|[p|]].
    + intros [= <- _]. apply os_error_is_Exception.
    + destruct (write_fails sys path content) as [[e' rest]|]; [|done].
      intros [= <- _]. apply io_exn_is_Exception.
    + destruct (write_special sys path content) as [e'|]; [|done].
      intros [= <- _]. apply io_exn_is_Exception.
Qed.


Lemma write_file_returns (sys : system) (filepath content : pystr) (t : tree) :
  write_file sys filepath content t
  = (Returned (text_of (lit "Error writing file: ")
                 (write_file_try sys filepath content t).1),
     (write_file_try sys filepath content t).2).
Proof.
  unfold write_file, try_except_Exception.
  destruct (write_file_try sys filepath content t) as [[text|e] t'] eqn:E; [done|].
  assert (is_Exception (exn_cls e) = true) as ->; [|done].
  revert E. unfold write_file_try, bind.
  destruct (nonempty (dirname filepath)).
  - destruct (makedirs sys (dirname filepath) t) as [[[]|e1] t1] eqn:Em.
    + unfold open_write. destruct (write_text sys filepath content t1) as [[[]|e2] t2] eqn:Ew;
        [done|]. intros [= <- _]. by apply write_text_raises in Ew.
    + intros [= <- _]. by apply makedirs_depth_raises in Em.
  - unfold ret, open_write.
    destruct (write_text sys filepath content t) as [[[]|e2] t2] eqn:Ew; [done|].
    intros [= <- _]. by apply write_text_raises in Ew.
Qed.



(** *** [list_files] *)

Lemma str_leb_total a : ∀ b, str_leb a b = true ∨ str_leb b a = true.
Proof.
  induction a as [|x a IH]; intros [|y b]; simpl; auto.
  destruct (N.lt_trichotomy x y) as [H|[->|H]].
  - left. apply orb_true_iff. left. by apply N.ltb_lt.
  - rewrite N.ltb_irrefl, N.eqb_refl. simpl. apply IH.
  - right. apply orb_true_iff. left. by apply N.ltb_lt.
Qed.

Lemma str_leb_trans a : ∀ b c, str_leb a b = true → str_leb b c = true → str_leb a c = true.
Proof.
  induction a as [|x a IH]; intros [|y b] [|z c]; simpl; try done.
  rewrite !orb_true_iff, !andb_true_iff, !N.ltb_lt, !N.eqb_eq.
  intros [Hxy|[-> Hab]] [Hyz|[-> Hbc]].
  - left. lia.
  - by left.
  - by left.
  - right. split; [done|]. by apply (IH b).
Qed.

Global Instance str_le_total : Total str_le.
Proof. intros a b. apply str_leb_total. Qed.

Global Instance str_le_trans : Transitive str_le.
Proof. intros a b c. apply str_leb_trans. Qed.

Lemma foldl_list_entry (sys : system) (t : tree) (directory : pystr) (listing : list pystr) :
  ∀ files, foldl (list_entry sys t directory) files listing
           = files ++ omap (rendered sys t directory) listing.
Proof.
  induction listing as [|item listing IH]; intros files; simpl.
  - by rewrite app_nil_r.
  - rewrite IH. unfold list_entry, rendered.
    destruct (isfile sys t (path_join directory item)); [by rewrite <- app_assoc|].
    destruct (isdir sys t (path_join directory item)); [by rewrite <- app_assoc|done].
Qed.

(** What [list_files] answers, by what [os.path.exists] and
    [os.listdir] do. *)
Lemma list_files_run (sys : system) (t : tree) (directory : pystr) :
  list_files sys directory t
  = (Returned
       (if exists_ sys t directory then
          match listdir sys t directory with
          | inr listing =>
              lit "Files in " ++ directory ++ lit ":" ++ nl
              ++ join nl (sorted (omap (rendered sys t directory) listing))
          | inl e => lit "Error listing files: " ++ exn_str e
          end
        else lit "Directory does not exist: " ++ directory), t).
Proof.
  unfold list_files, try_except_Exception, list_files_try, bind, os_path_exists,
    os_listdir, ret.
  destruct (exists_ sys t directory); [|done]. cbn [negb]. cbv beta iota.
  destruct (listdir sys t directory) as [e|listing] eqn:El; cbn [lift_exn].
  - assert (is_Exception (exn_cls e) = true) as ->; [|done].
    revert El. unfold listdir.
    destruct (refuses sys Listdir directory) as [e'|];
      [intros [= <-]; apply io_exn_is_Exception|].
    destruct (stat t directory) as [e'|[p []]]; try done;
      intros [= <-]; apply os_error_is_Exception.
  - cbv beta iota zeta. by rewrite foldl_list_entry.
Qed.

(** C9, as the code has it. For a directory that exists and that the
    system lets [os.listdir] read, [list_files] returns the success
    text, whose entries are in lexicographic order and are, up to that
    order, the names the directory lists, each regular file shown with
    the file marker and its name, each subdirectory with the folder
    marker, its name and a slash, and the other names left out. For a
    directory that exists and that [os.listdir] is refused on,
    [list_files] returns the text of the error. *)
Theorem list_files_sorted_listing (sys : system) (t : tree) (directory : pystr) :
  isdir sys t directory = true →
  match refuses sys Listdir directory with
  | None =>
      ∃ listing entries,
        listdir sys t directory = inr listing
        ∧ list_files sys directory t
          = (Returned (lit "Files in " ++ directory ++ lit ":" ++ nl ++ join nl entries), t)
        ∧ StronglySorted str_le entries
        ∧ entries ≡ₚ omap (rendered sys t directory) listing
  | Some e =>
      list_files sys directory t
      = (Returned (lit "Error listing files: " ++ exn_str (`e)), t)
  end.
Proof.
  intros Hd. rewrite list_files_run.
  assert (exists_ sys t directory = true) as ->.
  { revert Hd. unfold isdir, exists_. destruct (refuses sys Stat directory); [done|].
    by destruct (stat t directory). }
  destruct (refuses sys Listdir directory) as [e|] eqn:Hl.
  { unfold listdir. by rewrite Hl. }
  assert (∃ p, listdir sys t directory = inr (children t p)) as [p ->].
  { revert Hd. unfold isdir, listdir. rewrite Hl.
    destruct (refuses sys Stat directory); [done|].
    destruct (stat t directory) as [e|[p []]]; try done. by exists p. }
  exists (children t p), (sorted (omap (rendered sys t directory) (children t p))).
  split; [done|]. split; [done|]. split.
  - apply StronglySorted_merge_sort; apply _.
  - apply merge_sort_Permutation.
Qed.

(** C9 fails as stated: a directory that exists and that the process
    may not read is not listed; [list_files] answers with the error of
    [os.listdir]. *)
Lemma list_files_unreadable_directory :
  isdir (unreadable (lit "a")) sample_tree (lit "a") = true
  ∧ list_files (unreadable (lit "a")) (lit "a") sample_tree
    = (Returned (lit "Error listing files: [Errno 13] Permission denied: 'a'"), sample_tree).
Proof. split; vm_compute; reflexivity. Qed.

Example list_files_sample :
  list_files permissive (lit "a") sample_tree
  = (Returned (lit "Files in a:" ++ nl ++ folder_marker ++ lit " sub/" ++ nl
               ++ file_marker ++ lit " x.txt"), sample_tree).
Proof. vm_compute. reflexivity. Qed.

(** C9 on the directory [a] of the sample tree, which can be read. *)
Lemma list_files_sorted_listing_witness :
  ∃ listing entries,
    listdir permissive sample_tree (lit "a") = inr listing
    ∧ list_files permissive (lit "a") sample_tree
      = (Returned (lit "Files in " ++ lit "a" ++ lit ":" ++ nl ++ join nl entries), sample_tree)
    ∧ StronglySorted str_le entries
    ∧ entries ≡ₚ omap (rendered permissive sample_tree (lit "a")) listing.
Proof. exact (list_files_sorted_listing permissive sample_tree (lit "a") eq_refl). Defined.

(** *** Paths and their components *)

Lemma split_on_no_sep c : ch_slash ∉ c → split_on ch_slash c = [c].
Proof.
  induction c as [|x c IH]; simpl; [done|]. intros [Hx Hc]%not_elem_of_cons.
  assert ((x =? ch_slash) = false) as -> by (apply N.eqb_neq; congruence).
  by rewrite IH.
Qed.


Lemma split_on_snoc_name (a item : pystr) :
  ch_slash ∉ item →
  split_on ch_slash (a ++ ch_slash :: item) = split_on ch_slash a ++ [item].
Proof.
  intros Hi. induction a as [|x a IH]; simpl.
  - by rewrite split_on_no_sep.
  - rewrite IH. destruct (x =? ch_slash); [done|].
    pose proof (split_on_nonempty ch_slash a). by destruct (split_on ch_slash a).
Qed.

Lemma split_on_slash_end (a : pystr) :
  split_on ch_slash (a ++ [ch_slash]) = split_on ch_slash a ++ [[]].
Proof.
  induction a as [|x a IH]; simpl; [done|].
  rewrite IH. destruct (x =? ch_slash); [done|].
  pose proof (split_on_nonempty ch_slash a). by destruct (split_on ch_slash a).
Qed.





(** *** Trailing empty components *)

Lemma drop_trailing_empty_snoc ds d : d ≠ [] → drop_trailing_empty (ds ++ [d]) = ds ++ [d].
Proof.
  intros Hd. unfold drop_trailing_empty. rewrite reverse_app. simpl.
  destruct d; [done|]. simpl. change (?x :: reverse ds) with (reverse [x] ++ reverse ds).
  by rewrite <- reverse_app, reverse_involutive.
Qed.






(** *** [posixpath.split] by components *)











(** *** Walking and making directories *)

Lemma node_at_snoc (t : tree) p d : node_at t (p ++ [d]) = t !! (p ++ [d]).
Proof. by destruct p. Qed.

Lemma node_at_grows (t t1 : tree) (p : list pystr) (n : node) :
  t ⊆ t1 → node_at t p = Some n → node_at t1 p = Some n.
Proof. intros Hsub. destruct p; [done|]. simpl. intros H. by apply (lookup_weaken t). Qed.

Lemma walk_app (t : tree) a : ∀ cur b,
  walk t cur (a ++ b) = match walk t cur a with
                        | inr q => walk t q b
                        | inl e => inl e
                        end.
Proof.
  induction a as [|c a IH]; intros cur b; [done|]. simpl.
  destruct (node_at t cur) as [[]|]; try done.
  repeat case_bool_decide; rewrite ?IH; try done.
  by destruct (node_at t (cur ++ [c])).
Qed.

(** A path that resolves still resolves, to the same place, when
    nodes are added to the tree. *)
Lemma walk_grows (t t1 : tree) (cs : list pystr) :
  t ⊆ t1 → ∀ cur q, walk t cur cs = inr q → walk t1 cur cs = inr q.
Proof.
  intros Hsub.
  induction cs as [|c cs IH]; intros cur q; [done|]. simpl.
  destruct (node_at t cur) as [[]|] eqn:En; try done.
  rewrite (node_at_grows _ _ _ _ Hsub En).
  case_bool_decide; [apply IH|].
  case_bool_decide; [apply IH|].
  destruct (node_at t (cur ++ [c])) as [n|] eqn:Ec; [|done].
  rewrite (node_at_grows _ _ _ _ Hsub Ec). apply IH.
Qed.













(** *** [os.makedirs] makes the directories of a walk *)

Lemma stat_components (t : tree) (name : pystr) (q : list pystr) (n : node) :
  name ≠ [] → walk t [] (components name) = inr q → node_at t q = Some n →
  stat t name = inr (q, n).
Proof.
  intros Hne Hw Hn. unfold stat. destruct name; [done|]. cbn [nonempty].
  by rewrite Hw, Hn.
Qed.







(** *** [write_file] makes the directories of the path *)

Lemma components_nonempty (p : pystr) (l : list pystr) (f : pystr) :
  components p = l ++ [f] → f ≠ [] → p ≠ [].
Proof. intros Hc Hf ->. vm_compute in Hc. destruct l as [|? [|]]; by simplify_eq. Qed.




(** *** What [write_file] leaves in the tree *)

Lemma place_to_make_free (t : tree) (path : pystr) (p : list pystr) :
  place_to_make t path = inr p → t !! p = None.
Proof.
  unfold place_to_make. cbv zeta.
  destruct (negb (nonempty path)); [done|].
  destruct (negb (nonempty (drop_trailing_empty (components path)))); [done|].
  destruct (parent_and_name t _) as [e|[cur name]]; [done|].
  case_bool_decide; [done|].
  destruct (t !! (cur ++ [name])) eqn:E; [done|]. by intros [= <-].
Qed.

Lemma mkdir_grows (sys : system) (t t' : tree) (path : pystr) :
  mkdir sys t path = inr t' → t ⊆ t'.
Proof.
  unfold mkdir. destruct (refuses sys Mkdir path); [done|].
  destruct (place_to_make t path) as [e|p] eqn:E; [done|].
  intros [= <-]. apply insert_subseteq. by apply place_to_make_free in E.
Qed.

Lemma mkdir_exist_ok_grows (sys : system) (name : pystr) (t : tree) :
  t ⊆ (mkdir_exist_ok sys name t).2.
Proof.
  unfold mkdir_exist_ok. destruct (mkdir sys t name) as [e|t1] eqn:E.
  - by destruct (is_OSError (exn_cls e) && isdir sys t name).
  - by apply mkdir_grows in E.
Qed.

(** [makedirs] only adds directories, where there was nothing. *)
Lemma makedirs_depth_grows (sys : system) (depth : nat) : ∀ (name : pystr) (t : tree),
  t ⊆ (makedirs_depth sys depth name t).2.
Proof.
  induction depth as [|depth IH]; intros name t; simpl;
    destruct (head_tail name) as [head tail];
    destruct (nonempty head && nonempty tail && negb (exists_ sys t head));
    try apply mkdir_exist_ok_grows; [done|].
  specialize (IH head t).
  destruct (makedirs_depth sys depth head t) as [[[]|e1] t1]; simpl in IH.
  - destruct (bool_decide (tail = dot)); [done|].
    etrans; [exact IH|apply mkdir_exist_ok_grows].
  - destruct (exn_cls e1); try done.
    destruct (bool_decide (tail = dot)); [done|].
    etrans; [exact IH|apply mkdir_exist_ok_grows].
Qed.

(** What [open(path, 'w')] needs, and where it puts the file. *)
Lemma place_to_write_inv (t : tree) (path : pystr) (w : place) :
  place_to_write t path = inr w →
  ∃ l cur name,
    components path = l ++ [name] ∧ file_name name
    ∧ walk t [] l = inr cur ∧ node_at t cur = Some Dir
    ∧ match w with
      | Regular k =>
          k = cur ++ [name] ∧ (t !! k = None ∨ ∃ old, t !! k = Some (File old))
      | Device => t !! (cur ++ [name]) = Some Special
      end.
Proof.
  unfold place_to_write. cbv zeta.
  destruct (negb (nonempty path)); [done|].
  destruct (negb (nonempty (drop_trailing_empty (components path)))); [done|].
  destruct (parent_and_name t _) as [e|[cur name]] eqn:Ep; [done|].
  case_bool_decide as Hlast; [done|].
  case_bool_decide as Hname; [done|].
  intros Hw.
  pose proof (split_on_nonempty ch_slash path) as Hne. fold (components path) in Hne.
  destruct (last (components path)) as [c|] eqn:El; [|by apply last_None in El].
  apply last_Some in El as [l Hl].
  assert (c ≠ []) as Hc by (by intros ->; apply Hlast).
  rewrite Hl, drop_trailing_empty_snoc in Ep by done.
  unfold parent_and_name in Ep. rewrite removelast_last, last_snoc in Ep.
  destruct (walk t [] l) as [e|q] eqn:Ew; [done|].
  destruct (node_at t q) as [[]|] eqn:En; try done.
  injection Ep as -> <-. simpl in *.
  exists l, cur, c. split; [done|]. split.
  { split; [done|]. split; intros ->; apply Hname; [by left|by right]. }
  split; [done|]. split; [done|].
  destruct (t !! (cur ++ [c])) as [[old| |]|] eqn:Et; try done.
  - injection Hw as <-. split; [done|]. right. by eexists.
  - by injection Hw as <-.
  - injection Hw as <-. split; [done|]. by left.
Qed.

Lemma node_at_insert_file (t : tree) (k q : list pystr) (content : pystr) :
  (t !! k = None ∨ ∃ old, t !! k = Some (File old)) →
  (node_at t q = Some Dir → node_at (<[k := File content]> t) q = Some Dir)
  ∧ (is_Some (node_at t q) → is_Some (node_at (<[k := File content]> t) q)).
Proof.
  intros Hk. destruct q as [|c q]; [done|]. unfold node_at.
  destruct (decide (k = c :: q)) as [->|Hne].
  - rewrite lookup_insert_eq. split; [|by eexists].
    intros Hd. destruct Hk as [Hk|[old Hk]]; congruence.
  - by rewrite lookup_insert_ne.
Qed.

(** A path that resolves still resolves, to the same place, when a
    file is created or rewritten. *)
Lemma walk_insert_file (t : tree) (k : list pystr) (content : pystr) (cs : list pystr) :
  (t !! k = None ∨ ∃ old, t !! k = Some (File old)) →
  ∀ cur q, walk t cur cs = inr q → walk (<[k := File content]> t) cur cs = inr q.
Proof.
  intros Hk. induction cs as [|c cs IH]; intros cur q; [done|]. simpl.
  destruct (node_at t cur) as [[]|] eqn:En; try done.
  rewrite (proj1 (node_at_insert_file t k cur content Hk) En).
  case_bool_decide; [apply IH|].
  case_bool_decide; [apply IH|].
  destruct (node_at t (cur ++ [c])) as [n|] eqn:Ec; [|done].
  destruct (proj2 (node_at_insert_file t k (cur ++ [c]) content Hk)) as [n' ->];
    [by rewrite Ec|].
  apply IH.
Qed.

(** Where a path leads whose last component is a file name. *)
Lemma stat_file_name (t : tree) (path : pystr) (l : list pystr) (name : pystr)
    (cur : list pystr) (n : node) :
  components path = l ++ [name] → file_name name →
  walk t [] l = inr cur → node_at t cur = Some Dir → t !! (cur ++ [name]) = Some n →
  stat t path = inr (cur ++ [name], n).
Proof.
  intros Hl (Hn & Hdot & Hdd) Hwalk Hcur Hnode.
  apply stat_components.
  - by apply (components_nonempty _ _ _ Hl).
  - rewrite Hl, walk_app, Hwalk. simpl. rewrite Hcur.
    rewrite bool_decide_eq_false_2 by (by intros [?|?]).
    rewrite bool_decide_eq_false_2 by done.
    by rewrite node_at_snoc, Hnode.
  - by rewrite node_at_snoc.
Qed.

(** Where the file [open(path, 'w')] has made or emptied is found
    afterwards, whatever it then holds. *)
Lemma stat_opened (t : tree) (path : pystr) (k : list pystr) (c : pystr) :
  place_to_write t path = inr (Regular k) →
  (t !! k = None ∨ ∃ old, t !! k = Some (File old))
  ∧ stat (<[k := File c]> t) path = inr (k, File c).
Proof.
  intros (l & cur & name & Hl & Hname & Hwalk & Hcur & -> & Hk)%place_to_write_inv.
  split; [done|].
  apply (stat_file_name _ path l name cur); [done|done| | |].
  - by apply walk_insert_file.
  - by apply node_at_insert_file.
  - apply lookup_insert_eq.
Qed.

(** The state [open], [write] and the closing leave: the tree as it
    was, or with the one file they have made or rewritten. *)
Lemma write_text_frame (sys : system) (path content : pystr) (t : tree) :
  (write_text sys path content t).2 = t
  ∨ ∃ k c, (t !! k = None ∨ ∃ old, t !! k = Some (File old))
           ∧ (write_text sys path content t).2 = <[k := File c]> t
           ∧ stat (write_text sys path content t).2 path = inr (k, File c)
           ∧ ((write_text sys path content t).1 = Returned tt → c = content).
Proof.
  unfold write_text. destruct (refuses sys OpenWrite path); [by left|].
  destruct (place_to_write t path) as [e|[k|]] eqn:Ep; [by left| |].
  - right. destruct (write_fails sys path content) as [[e rest]|].
    + exists k, rest. destruct (stat_opened t path k rest Ep) as [Hk Hs]. by cbn [fst snd].
    + exists k, content. destruct (stat_opened t path k content Ep) as [Hk Hs].
      by cbn [fst snd].
  - left. by destruct (write_special sys path content).
Qed.

(** When they succeed: on a special file, which is not in the hands of
    the tree, or on a regular file, which then holds the content. *)
Lemma write_text_inv (sys : system) (path content : pystr) (t t' : tree) :
  write_text sys path content t = (Returned tt, t') →
  ∃ l cur name,
    components path = l ++ [name] ∧ file_name name
    ∧ walk t [] l = inr cur ∧ node_at t cur = Some Dir
    ∧ ((t' = t ∧ t !! (cur ++ [name]) = Some Special)
       ∨ ((t !! (cur ++ [name]) = None ∨ ∃ old, t !! (cur ++ [name]) = Some (File old))
          ∧ t' = <[cur ++ [name] := File content]> t)).
Proof.
  unfold write_text. destruct (refuses sys OpenWrite path); [done|].
  destruct (place_to_write t path) as [e|w] eqn:Ep; [done|].
  apply place_to_write_inv in Ep as (l & cur & name & Hl & Hname & Hwalk & Hcur & Hw).
  intros Hr. exists l, cur, name. do 4 (split; [done|]).
  destruct w as [k|].
  - destruct Hw as [-> Hk]. right. split; [done|].
    destruct (write_fails sys path content) as [[e rest]|]; [done|]. by injection Hr.
  - left. destruct (write_special sys path content); [done|]. by injection Hr.
Qed.

Lemma write_file_try_inv (sys : system) (filepath content : pystr) (t t' : tree)
    (text : pystr) :
  write_file_try sys filepath content t = (Returned text, t') →
  text = written filepath content
  ∧ ∃ t1, t ⊆ t1 ∧ write_text sys filepath content t1 = (Returned tt, t').
Proof.
  unfold write_file_try, bind.
  assert (∀ t1, t ⊆ t1 →
            match open_write sys filepath content t1 with
            | (Returned _, w') =>
                ret (lit "Successfully wrote " ++ str_of_N (N.of_nat (length content))
                     ++ lit " characters to " ++ filepath) w'
            | (Raised e, w') => (Raised e, w')
            end = (Returned text, t') →
            text = written filepath content
            ∧ ∃ t1, t ⊆ t1 ∧ write_text sys filepath content t1 = (Returned tt, t')) as Hopen.
  { intros t1 Hsub. unfold open_write.
    destruct (write_text sys filepath content t1) as [[[]|e] t2] eqn:Ew; [|done].
    intros [= <- <-]. split; [done|]. by exists t1. }
  destruct (nonempty (dirname filepath)).
  - pose proof (makedirs_depth_grows sys (recursion_limit sys) (dirname filepath) t) as Hg.
    unfold makedirs.
    destruct (makedirs_depth sys _ (dirname filepath) t) as [[[]|e] t1]; [|done].
    by apply Hopen.
  - by apply Hopen.
Qed.

(** The state [write_file] leaves, when it fails too: directories are
    added, and one file is made or rewritten, the one the path then
    leads to. *)
Lemma write_file_try_frame (sys : system) (filepath content : pystr) (t : tree) :
  ∃ t1, t ⊆ t1
    ∧ ((write_file_try sys filepath content t).2 = t1
       ∨ ∃ k c, (t1 !! k = None ∨ ∃ old, t1 !! k = Some (File old))
                ∧ (write_file_try sys filepath content t).2 = <[k := File c]> t1
                ∧ stat (write_file_try sys filepath content t).2 filepath
                  = inr (k, File c)
                ∧ (∀ text, (write_file_try sys filepath content t).1 = Returned text →
                           c = content)).
Proof.
  unfold write_file_try, bind.
  set (after := λ r : outcome unit * tree,
         match r with
         | (Returned _, w') =>
             ret (lit "Successfully wrote " ++ str_of_N (N.of_nat (length content))
                  ++ lit " characters to " ++ filepath) w'
         | (Raised e, w') => (Raised e, w')
         end).
  assert (∀ t1 : tree,
            (after (open_write sys filepath content t1)).2 = t1
            ∨ ∃ k c, (t1 !! k = None ∨ ∃ old, t1 !! k = Some (File old))
                     ∧ (after (open_write sys filepath content t1)).2 = <[k := File c]> t1
                     ∧ stat (after (open_write sys filepath content t1)).2 filepath
                       = inr (k, File c)
                     ∧ (∀ text, (after (open_write sys filepath content t1)).1
                                = Returned text → c = content)) as Hopen.
  { intros t1. unfold after, open_write.
    destruct (write_text_frame sys filepath content t1) as [Hr|(k & c & Hk & Hr & Hs & Hc)].
    - left. by destruct (write_text sys filepath content t1) as [[[]|e] t2].
    - right. exists k, c. split; [done|].
      destruct (write_text sys filepath content t1) as [[[]|e] t2]; cbn [fst snd] in *.
      + split; [done|]. split; [done|]. intros _ _. by apply Hc.
      + by do 2 (split; [done|]). }
  destruct (nonempty (dirname filepath)).
  - pose proof (makedirs_depth_grows sys (recursion_limit sys) (dirname filepath) t) as Hg.
    unfold makedirs.
    destruct (makedirs_depth sys _ (dirname filepath) t) as [[[]|e] t1]; simpl in Hg.
    + exists t1. split; [done|apply Hopen].
    + exists t1. split; [done|by left].
  - exists t. split; [done|apply Hopen].
Qed.

Lemma stat_grows (t t1 : tree) (path : pystr) (p : list pystr) (n : node) :
  t ⊆ t1 → stat t path = inr (p, n) → stat t1 path = inr (p, n).
Proof.
  intros Hsub. unfold stat. destruct (nonempty path); [|done].
  destruct (walk t [] (components path)) as [e|q] eqn:Ew; [done|].
  rewrite (walk_grows t t1 _ Hsub _ _ Ew).
  destruct (node_at t q) as [m|] eqn:En; [|done]. intros [= -> ->].
  by rewrite (node_at_grows t t1 p n).
Qed.

Lemma stat_insert_file (t : tree) (k : list pystr) (content path : pystr)
    (p : list pystr) (n : node) :
  (t !! k = None ∨ ∃ old, t !! k = Some (File old)) → k ≠ p →
  stat t path = inr (p, n) → stat (<[k := File content]> t) path = inr (p, n).
Proof.
  intros Hk Hne. unfold stat. destruct (nonempty path); [|done].
  destruct (walk t [] (components path)) as [e|q] eqn:Ew; [done|].
  rewrite (walk_insert_file t k content _ Hk _ _ Ew).
  destruct (node_at t q) as [m|] eqn:En; [|done]. intros [= -> ->].
  destruct p as [|c p]; [by injection En as <-|].
  simpl in *. by rewrite lookup_insert_ne, En.
Qed.

(** The text of a failure is not the success message. *)
Lemma error_is_not_written (e : exn) (filepath content : pystr) :
  lit "Error writing file: " ++ exn_str e ≠ written filepath content.
Proof. by intros [= H]. Qed.

(** X15. [write_file] removes nothing and changes nothing but the file
    it writes, whether it succeeds or fails: every node the tree had is
    still there afterwards, the same, unless it is the regular file the
    path written leads to; that one is still a regular file, with the
    content written when [write_file] answers with the success message,
    and else with what [open], which empties it, and a failing [write]
    have left in it. *)
Theorem write_file_keeps_nodes (sys : system) (filepath content : pystr) (t : tree)
    (p : list pystr) (n : node) :
  t !! p = Some n →
  (write_file sys filepath content t).2 !! p = Some n
  ∨ ∃ old new,
      n = File old
      ∧ (write_file sys filepath content t).2 !! p = Some (File new)
      ∧ stat (write_file sys filepath content t).2 filepath = inr (p, File new)
      ∧ ((write_file sys filepath content t).1 = Returned (written filepath content) →
         new = content).
Proof.
  intros Hp. rewrite write_file_returns. cbn [fst snd].
  destruct (write_file_try_frame sys filepath content t) as (t1 & Hsub & Hr).
  pose proof (lookup_weaken _ _ _ _ Hp Hsub) as Hp1.
  destruct Hr as [->|(k & c & Hk & Heq & Hs & Hc)]; [by left|].
  rewrite Heq in *.
  destruct (decide (k = p)) as [->|Hne].
  - rewrite lookup_insert_eq. destruct Hk as [Hk|[old Hk]]; [congruence|].
    right. exists old, c. split; [congruence|]. split; [done|]. split; [done|].
    destruct (write_file_try sys filepath content t).1 as [text|e] eqn:E; cbn [text_of].
    + intros _. by apply (Hc text).
    + intros H. destruct (error_is_not_written e filepath content). congruence.
  - left. by rewrite lookup_insert_ne.
Qed.

(** The file [f] of the sample tree, when [a/new.txt] is written. *)
Lemma write_file_keeps_nodes_witness :
  (write_file permissive (lit "a/new.txt") (lit "x") sample_tree).2 !! [lit "f"]
  = Some (File (lit "data"))
  ∨ ∃ old new,
      File (lit "data") = File old
      ∧ (write_file permissive (lit "a/new.txt") (lit "x") sample_tree).2 !! [lit "f"]
        = Some (File new)
      ∧ stat (write_file permissive (lit "a/new.txt") (lit "x") sample_tree).2
          (lit "a/new.txt") = inr ([lit "f"], File new)
      ∧ ((write_file permissive (lit "a/new.txt") (lit "x") sample_tree).1
         = Returned (written (lit "a/new.txt") (lit "x")) → new = lit "x").
Proof.
  apply (write_file_keeps_nodes permissive (lit "a/new.txt") (lit "x") sample_tree [lit "f"]).
  vm_compute. reflexivity.
Defined.

(** A text that cannot be encoded: [open] has emptied the file [f]
    before [write] fails, and the file stays empty. *)
Example write_file_empties_before_failing :
  write_file strict_utf8 (lit "f") [55296] sample_tree
  = (Returned (lit "Error writing file: 'utf-8' codec can't encode character '\ud800' in position 0: surrogates not allowed"),
     <[ [lit "f"] := File [] ]> sample_tree).
Proof. vm_compute. reflexivity. Qed.

(** A file name that is too long: the directory is made, the file is
    not. *)
Example write_file_name_too_long :
  write_file name_max (lit "d/" ++ replicate 256 97) (lit "x") ∅
  = (Returned (lit "Error writing file: [Errno 36] File name too long: 'd/"
               ++ replicate 256 97 ++ lit "'"),
     {[ [lit "d"] := Dir ]}).
Proof. vm_compute. reflexivity. Qed.

(** *** Reading back *)

Lemma universal_newlines_id (s : pystr) : ch_return ∉ s → universal_newlines s = s.
Proof.
  induction s as [|c s IH]; [done|]. intros Hs. simpl.
  destruct (c =? 13) eqn:E.
  - apply N.eqb_eq in E. subst c. exfalso. apply Hs. by left.
  - f_equal. apply IH. intros ?. apply Hs. by right.
Qed.

(** What [read_file] answers, by what [os.path.exists] and [open] do. *)
Lemma read_file_run (sys : system) (t : tree) (filepath : pystr) :
  read_file sys filepath t
  = (Returned
       (if exists_ sys t filepath then
          match read_text sys t filepath with
          | inr content => lit "Contents of " ++ filepath ++ lit ":" ++ nl ++ nl ++ content
          | inl e => lit "Error reading file: " ++ exn_str e
          end
        else lit "File does not exist: " ++ filepath), t).
Proof.
  unfold read_file, try_except_Exception, read_file_try, bind, os_path_exists, open_read.
  destruct (exists_ sys t filepath); [|done]. cbn [negb].
  destruct (read_text sys t filepath) as [e|content] eqn:Er; cbn [lift_exn]; [|done].
  by rewrite (read_text_raises _ _ _ _ Er).
Qed.

(** X16. What [write_file] has written, [read_file] gives back: after
    the success message of [write_file], [read_file] of the same path
    answers with the content written, when the content has no carriage
    return (which reading in text mode turns into a newline), when the
    path leads to a regular file and not to a device, and when the
    system refuses neither [os.stat] nor opening the file for
    reading. *)
Theorem write_file_then_read_file (sys : system) (filepath content : pystr) (t t' : tree) :
  ch_return ∉ content →
  write_file sys filepath content t = (Returned (written filepath content), t') →
  (∀ k, stat t' filepath ≠ inr (k, Special)) →
  refuses sys Stat filepath = None → refuses sys OpenRead filepath = None →
  read_file sys filepath t'
  = (Returned (lit "Contents of " ++ filepath ++ lit ":" ++ nl ++ nl ++ content), t').
Proof.
  intros Hcr. rewrite write_file_returns.
  destruct (write_file_try sys filepath content t) as [[text|e] t2] eqn:E;
    cbn [text_of fst snd];
    [|intros H; destruct (error_is_not_written e filepath content); congruence].
  intros [= _ ->] Hsp Hstat Hopen.
  apply write_file_try_inv in E as (_ & t1 & _ & Hw).
  apply write_text_inv in Hw as (l & cur & name & Hl & Hname & Hwalk & Hcur & Hw).
  assert (stat t' filepath = inr (cur ++ [name], File content)) as Hs.
  { destruct Hw as [[-> Hdev]|[Hk ->]].
    - destruct (Hsp (cur ++ [name])). by apply (stat_file_name _ _ l name cur).
    - apply (stat_file_name _ _ l name cur); [done|done| | |].
      + by apply walk_insert_file.
      + by apply node_at_insert_file.
      + apply lookup_insert_eq. }
  rewrite read_file_run. unfold exists_, read_text.
  by rewrite Hstat, Hopen, Hs, universal_newlines_id.
Qed.

(** A file in a directory that is made on the way. *)
Lemma write_file_then_read_file_witness :
  read_file permissive (lit "out/notes.txt")
    (write_file permissive (lit "out/notes.txt") (lit "two" ++ nl ++ lit "lines")
       sample_tree).2
  = (Returned (lit "Contents of " ++ lit "out/notes.txt" ++ lit ":" ++ nl ++ nl
               ++ (lit "two" ++ nl ++ lit "lines")),
     (write_file permissive (lit "out/notes.txt") (lit "two" ++ nl ++ lit "lines")
        sample_tree).2).
Proof.
  apply (write_file_then_read_file permissive (lit "out/notes.txt")
           (lit "two" ++ nl ++ lit "lines") sample_tree).
  - apply (bool_decide_unpack _). vm_compute. exact I.
  - vm_compute. reflexivity.
  - intros k. vm_compute. discriminate.
  - reflexivity.
  - reflexivity.
Defined.

(** *** Other files *)

(** X17. [write_file] does not touch the other files: a path that led
    to a regular file before the call, and to which the path written
    does not lead afterwards, is read by [read_file] with the same
    answer as before, whether the writing succeeds or fails. *)
Theorem write_file_keeps_other_files (sys : system) (filepath content other old : pystr)
    (t : tree) (p : list pystr) :
  stat t other = inr (p, File old) →
  (∀ n, stat (write_file sys filepath content t).2 filepath ≠ inr (p, n)) →
  (read_file sys other (write_file sys filepath content t).2).1
  = (read_file sys other t).1.
Proof.
  rewrite write_file_returns. cbn [snd]. intros Hs Hother.
  assert (stat (write_file_try sys filepath content t).2 other = inr (p, File old)) as Hs'.
  { destruct (write_file_try_frame sys filepath content t) as (t1 & Hsub & Hr).
    destruct Hr as [->|(k & c & Hkey & Heq & Hk & _)]; [by apply (stat_grows t)|].
    rewrite Heq. apply stat_insert_file; [done| |by apply (stat_grows t)].
    intros <-. by apply (Hother (File c)). }
  rewrite !read_file_run. unfold exists_, read_text. by rewrite Hs, Hs'.
Qed.

(** The file [f] of the sample tree, when [a/x.txt] is written. *)
Lemma write_file_keeps_other_files_witness :
  (read_file permissive (lit "f")
     (write_file permissive (lit "a/x.txt") (lit "new") sample_tree).2).1
  = (read_file permissive (lit "f") sample_tree).1.
Proof.
  apply (write_file_keeps_other_files permissive (lit "a/x.txt") (lit "new") (lit "f")
           (lit "data") sample_tree [lit "f"]).
  - vm_compute. reflexivity.
  - intros n. vm_compute. discriminate.
Defined.
(** *** What [list_files] shows, by the nodes of the tree *)

Lemma plain_name_no_start (item : pystr) :
  plain_name item → startswith [ch_slash] item = false.
Proof.
  intros (Hne & Hslash & _). destruct item as [|c item]; [done|].
  change ((ch_slash =? c) && true = false).
  rewrite andb_true_r. apply N.eqb_neq. intros <-. apply Hslash. by left.
Qed.

(** The components of a directory's path and then a plain name: those
    of the joined path, but for an empty one. *)
Lemma components_path_join (directory item : pystr) :
  directory ≠ [] → plain_name item →
  ∃ l, components (path_join directory item) = l ++ [item]
       ∧ (components directory = l ∨ components directory = l ++ [[]]).
Proof.
  intros Hd Hi. pose proof (plain_name_no_start item Hi) as Hstart.
  destruct Hi as (Hne & Hslash & Hdot & Hdd).
  assert (nonempty directory = true) as Hnd by (by destruct directory).
  unfold path_join. rewrite Hstart, Hnd. cbn [negb orb]. unfold components.
  case_bool_decide as Hl.
  - apply last_Some in Hl as [d' ->]. exists (split_on ch_slash d').
    rewrite <- app_assoc. change ([ch_slash] ++ item) with (ch_slash :: item).
    rewrite split_on_snoc_name by done. split; [done|].
    right. apply split_on_slash_end.
  - exists (split_on ch_slash directory).
    change ([ch_slash] ++ item) with (ch_slash :: item).
    rewrite split_on_snoc_name by done. split; [done|by left].
Qed.

(** A plain name under a directory: [stat] of the joined path finds the
    node the tree has for that name there. *)
Lemma stat_path_join (t : tree) (directory item : pystr) (p : list pystr) :
  stat t directory = inr (p, Dir) → plain_name item →
  stat t (path_join directory item)
  = match t !! (p ++ [item]) with
    | Some n => inr (p ++ [item], n)
    | None => inl ENOENT
    end.
Proof.
  intros Hs Hi.
  assert (directory ≠ []) as Hd by (by intros ->).
  destruct (components_path_join directory item Hd Hi) as (l & Hj & Hl).
  assert (walk t [] l = inr p ∧ node_at t p = Some Dir) as [Hwalk Hp].
  { revert Hs. unfold stat. destruct (nonempty directory); [|done].
    destruct Hl as [->| ->].
    - destruct (walk t [] l) as [e|q]; [done|].
      destruct (node_at t q) as [n|] eqn:En; [|done]. by intros [= -> ->].
    - rewrite walk_app. destruct (walk t [] l) as [e|q]; [done|]. simpl.
      destruct (node_at t q) as [[]|] eqn:En; try done. rewrite En. by intros [= ->]. }
  destruct Hi as (Hne & Hslash & Hdot & Hdd).
  destruct (t !! (p ++ [item])) as [n|] eqn:En.
  - by apply (stat_file_name t _ l item p).
  - unfold stat.
    assert (nonempty (path_join directory item) = true) as ->.
    { pose proof (components_nonempty _ _ _ Hj Hne). by destruct (path_join directory item). }
    rewrite Hj, walk_app, Hwalk. simpl. rewrite Hp.
    rewrite bool_decide_eq_false_2 by (by intros [?|?]).
    rewrite bool_decide_eq_false_2 by done.
    by rewrite node_at_snoc, En.
Qed.

(** The names [listdir] gives are those of the nodes of the directory. *)
Lemma children_nodes (t : tree) (p : list pystr) (item : pystr) :
  item ∈ children t p ↔ is_Some (t !! (p ++ [item])).
Proof.
  unfold children. rewrite list_elem_of_omap. split.
  - intros ([k n] & Hin & Hk). apply elem_of_map_to_list in Hin. simpl in Hk.
    destruct k as [|k0 k'] eqn:Ek; [done|]. rewrite <- Ek in *.
    case_bool_decide as Hp; [|done].
    apply last_Some in Hk as [k1 Hk1]. rewrite Hk1, removelast_last in Hp.
    subst k1. rewrite <- Hk1. by eexists.
  - intros [n Hn]. exists (p ++ [item], n). split; [by apply elem_of_map_to_list|].
    simpl. destruct (p ++ [item]) as [|c cs] eqn:E; [by destruct p|]. rewrite <- E.
    rewrite removelast_last, bool_decide_eq_true_2 by done. apply last_snoc.
Qed.

(** The listing of a directory the system lets read. *)
Lemma list_files_of_dir (sys : system) (t : tree) (directory : pystr) (p : list pystr) :
  stat t directory = inr (p, Dir) →
  refuses sys Stat directory = None → refuses sys Listdir directory = None →
  list_files sys directory t
  = (Returned (lit "Files in " ++ directory ++ lit ":" ++ nl
               ++ join nl (sorted (omap (rendered sys t directory) (children t p)))), t).
Proof.
  intros Es Hs Hl. rewrite list_files_run. unfold exists_, listdir.
  by rewrite Hs, Hl, Es.
Qed.





(** A directory without search permission: its names are listed by
    [os.listdir], and none of them is shown, since [os.stat] fails on
    each. *)
Example list_files_unsearchable_directory :
  list_files (unsearchable (lit "a")) (lit "a") sample_tree
  = (Returned (lit "Files in a:" ++ nl), sample_tree).
Proof. vm_compute. reflexivity. Qed.

(** *** Folders first *)






(** *** Paths that are no directory, and no file *)

(** X19. On a path that is no directory [list_files] lists nothing:
    it answers that the directory does not exist when [os.path.exists]
    finds nothing at the path, and else with the error of
    [os.listdir]: the one of the system when it refuses the call, and
    [Not a directory], with the [repr] of the path, when it does not;
    the tree is left as it is. *)
Theorem list_files_of_no_directory (sys : system) (t : tree) (directory : pystr) :
  isdir sys t directory = false →
  list_files sys directory t
  = (Returned (if exists_ sys t directory
               then match refuses sys Listdir directory with
                    | Some e => lit "Error listing files: " ++ exn_str (`e)
                    | None => lit "Error listing files: [Errno 20] Not a directory: "
                              ++ repr_str (isprintable sys) directory
                    end
               else lit "Directory does not exist: " ++ directory), t).
Proof.
  unfold isdir. intros H. rewrite list_files_run. unfold exists_, listdir.
  destruct (refuses sys Stat directory); [done|].
  destruct (stat t directory) as [e|[p n]] eqn:Es; [done|].
  destruct (refuses sys Listdir directory); [done|]. by destruct n.
Qed.

(** The file [f] of the sample tree. *)
Lemma list_files_of_no_directory_witness :
  list_files permissive (lit "f") sample_tree
  = (Returned (lit "Error listing files: [Errno 20] Not a directory: 'f'"), sample_tree).
Proof. exact (list_files_of_no_directory permissive sample_tree (lit "f") eq_refl). Defined.

(** A name with a character that is not printable, here the zero width
    space U+200B: [repr] shows it escaped. *)
Example list_files_escapes_the_name :
  list_files unicode (lit "f" ++ [8203]) (<[ [lit "f" ++ [8203]] := File [] ]> ∅)
  = (Returned (lit "Error listing files: [Errno 20] Not a directory: 'f\u200b'"),
     <[ [lit "f" ++ [8203]] := File [] ]> ∅).
Proof. vm_compute. reflexivity. Qed.

(** X20. [read_file] on a path that leads to no regular file and to no
    special file reads nothing: it answers that the file does not exist
    when [os.path.exists] finds nothing at the path, and else with the
    error of [open]: the one of the system when it refuses the call,
    and [Is a directory], with the [repr] of the path, when it does
    not; the tree is left as it is. *)
Theorem read_file_of_no_file (sys : system) (t : tree) (filepath : pystr) :
  isfile sys t filepath = false →
  (∀ p, stat t filepath ≠ inr (p, Special)) →
  read_file sys filepath t
  = (Returned (if exists_ sys t filepath
               then match refuses sys OpenRead filepath with
                    | Some e => lit "Error reading file: " ++ exn_str (`e)
                    | None => lit "Error reading file: [Errno 21] Is a directory: "
                              ++ repr_str (isprintable sys) filepath
                    end
               else lit "File does not exist: " ++ filepath), t).
Proof.
  unfold isfile. intros H Hsp. rewrite read_file_run. unfold exists_, read_text.
  destruct (refuses sys Stat filepath); [done|].
  destruct (stat t filepath) as [e|[p n]] eqn:Es; [done|].
  destruct (refuses sys OpenRead filepath); [done|].
  destruct n; [done|done|]. by destruct (Hsp p).
Qed.

(** The directory [a] of the sample tree. *)
Lemma read_file_of_no_file_witness :
  read_file permissive (lit "a") sample_tree
  = (Returned (lit "Error reading file: [Errno 21] Is a directory: 'a'"), sample_tree).
Proof.
  apply (read_file_of_no_file permissive sample_tree (lit "a")).
  - reflexivity.
  - intros p. vm_compute. discriminate.
Defined.

(** *** A file that was written is listed *)

(** X21. A regular file that [write_file] has written under a
    directory is in the listing of that directory afterwards, as a file
    line with its name, when the system lets the directory be read and
    lets [os.stat] look at the directory and at the file. *)
Theorem written_file_is_listed (sys : system) (directory f content : pystr)
    (t t' : tree) :
  directory ≠ [] → plain_name f →
  write_file sys (path_join directory f) content t
  = (Returned (written (path_join directory f) content), t') →
  (∀ k, stat t' (path_join directory f) ≠ inr (k, Special)) →
  refuses sys Stat directory = None → refuses sys Listdir directory = None →
  refuses sys Stat (path_join directory f) = None →
  ∃ entries,
    list_files sys directory t'
    = (Returned (lit "Files in " ++ directory ++ lit ":" ++ nl ++ join nl entries), t')
    ∧ file_marker ++ lit " " ++ f ∈ entries.
Proof.
  intros Hd Hf. rewrite write_file_returns.
  destruct (write_file_try sys (path_join directory f) content t) as [[text|e] t2] eqn:E;
    cbn [text_of fst snd];
    [|intros H; destruct (error_is_not_written e (path_join directory f) content);
      congruence].
  intros [= _ ->] Hsp Hsd Hld Hsf.
  apply write_file_try_inv in E as (_ & t1 & _ & Hw).
  apply write_text_inv in Hw as (l & cur & name & Hl & Hname & Hwalk & Hcur & Hw).
  destruct (components_path_join directory f Hd Hf) as (l' & Hj & Hl').
  rewrite Hj in Hl. apply app_inj_tail in Hl as [-> <-].
  destruct Hw as [[-> Hdev]|[Hk ->]].
  { destruct (Hsp (cur ++ [f])). by apply (stat_file_name _ _ l f cur). }
  assert (stat (<[cur ++ [f] := File content]> t1) directory = inr (cur, Dir)) as Hs.
  { apply stat_components; [done| |by apply node_at_insert_file].
    destruct Hl' as [->| ->].
    - by apply walk_insert_file.
    - rewrite walk_app, (walk_insert_file t1 _ content l Hk [] cur Hwalk). simpl.
      by rewrite (proj1 (node_at_insert_file t1 _ cur content Hk) Hcur). }
  eexists. split; [by apply (list_files_of_dir sys _ directory cur)|].
  unfold sorted. rewrite merge_sort_Permutation. apply list_elem_of_omap.
  exists f. split.
  - apply children_nodes. rewrite lookup_insert_eq. by eexists.
  - unfold rendered, isfile. rewrite Hsf, (stat_path_join _ directory f cur) by done.
    by rewrite lookup_insert_eq.
Qed.

(** A new file in the directory [a] of the sample tree. *)
Lemma written_file_is_listed_witness :
  ∃ entries,
    list_files permissive (lit "a")
      (write_file permissive (path_join (lit "a") (lit "new.txt")) (lit "x") sample_tree).2
    = (Returned (lit "Files in " ++ lit "a" ++ lit ":" ++ nl ++ join nl entries),
       (write_file permissive (path_join (lit "a") (lit "new.txt")) (lit "x")
          sample_tree).2)
    ∧ file_marker ++ lit " " ++ lit "new.txt" ∈ entries.
Proof.
  apply (written_file_is_listed permissive (lit "a") (lit "new.txt") (lit "x") sample_tree).
  - discriminate.
  - apply (bool_decide_unpack _). vm_compute. exact I.
  - vm_compute. reflexivity.
  - intros k. vm_compute. discriminate.
  - reflexivity.
  - reflexivity.
  - reflexivity.
Defined.
